(** * OAuth2 credential lifecycle of safe-gmail-mcp

    A shallow embedding of [src/auth/oauth.js]: the port selector
    ([findAvailablePort], [isPortAvailable]), the interactive grant flow
    ([authenticate]) and the refresh gate ([refreshIfNeeded]).

    The platform the module runs on is modelled by what the code can observe
    of it:
    - the file system is a set of directories and a finite map from paths to
      files (content and permission bits), with the behaviour of
      [fs.existsSync], [fs.mkdirSync (recursive)] and [fs.writeFileSync];
    - the local TCP stack is the set of ports that are bound;
    - the identity provider is an oracle: the reply of [getToken] or of
      [refreshAccessToken] is an input of the model, either an error message
      or a token record;
    - the event loop is a list of events delivered one at a time to the
      handlers that [authenticate] registers.

    Strings are byte strings; paths are compared as they are written. *)

From Stdlib Require Import ZArith NArith List String Ascii Bool Lia DecimalString.
From stdpp Require Import gmap strings.

Open Scope string_scope.

(** ** JavaScript values and string primitives used by the module *)

Module Js.

(** [s.startsWith(p)] *)
Definition startsWith (s p : string) : bool := String.prefix p s.

(** [s.lastIndexOf(c)] for a one-character needle; [-1] when it does not
    occur. *)
Fixpoint lastIndexOf_from (c : ascii) (s : string) (i : Z) (found : Z) : Z :=
  match s with
  | EmptyString => found
  | String a s' =>
      lastIndexOf_from c s' (i + 1) (if Ascii.eqb a c then i else found)
  end.

Definition lastIndexOf (c : ascii) (s : string) : Z :=
  lastIndexOf_from c s 0 (-1).

(** [s.substring(from, to)]: both indices are clamped to [0 .. s.length] and
    swapped when [from > to]. *)
Definition clamp (s : string) (i : Z) : nat :=
  Z.to_nat (Z.min (Z.max i 0) (Z.of_nat (String.length s))).

Definition substring (s : string) (from to : Z) : string :=
  let a := clamp s from in
  let b := clamp s to in
  let lo := Nat.min a b in
  let hi := Nat.max a b in
  String.substring lo (hi - lo) s.

(** Truthiness of a value that is a string, [null] or [undefined]: only a
    non-empty string is truthy. *)
Definition truthy (v : option string) : bool :=
  match v with
  | Some s => negb (String.eqb s "")
  | None => false
  end.

(** A value that is a number, [null] or [undefined] (the type of
    [expiry_date] in a token record). *)
Inductive num : Type :=
| Undefined
| Null
| Number (z : Z).

Definition truthy_num (v : num) : bool :=
  match v with
  | Number z => negb (Z.eqb z 0)
  | _ => false
  end.

(** Decimal rendering of a number inside a template literal. *)
Definition showN (n : N) : string := NilZero.string_of_uint (N.to_uint n).

(** [xs.join(sep)] on already rendered items. *)
Fixpoint join (sep : string) (xs : list string) : string :=
  match xs with
  | [] => ""
  | [x] => x
  | x :: rest => x +:+ sep +:+ join sep rest
  end.

End Js.

(** ** Query parameters of a request URL

    [new URL(req.url, base).searchParams.get(name)]: the query is what lies
    between the first [?] and the first [#]; it is split at [&], each piece at
    its first [=]; [+] stands for a space and [%XY] for the byte [XY]. *)

Module Url.

Fixpoint take_until (c : ascii) (s : string) : string :=
  match s with
  | EmptyString => EmptyString
  | String a s' => if Ascii.eqb a c then EmptyString else String a (take_until c s')
  end.

Fixpoint drop_through (c : ascii) (s : string) : option string :=
  match s with
  | EmptyString => None
  | String a s' => if Ascii.eqb a c then Some s' else drop_through c s'
  end.

Definition query (reqUrl : string) : option string :=
  drop_through "?" (take_until "#" reqUrl).

Fixpoint split_on (c : ascii) (s : string) : list string :=
  match s with
  | EmptyString => [EmptyString]
  | String a s' =>
      if Ascii.eqb a c then EmptyString :: split_on c s'
      else match split_on c s' with
           | [] => [String a EmptyString]
           | p :: ps => String a p :: ps
           end
  end.

Definition hexval (a : ascii) : option N :=
  let n := N_of_ascii a in
  if ((48 <=? n) && (n <=? 57))%N then Some (n - 48)%N
  else if ((65 <=? n) && (n <=? 70))%N then Some (n - 55)%N
  else if ((97 <=? n) && (n <=? 102))%N then Some (n - 87)%N
  else None.

Fixpoint percent_decode (s : string) : string :=
  match s with
  | String "%" (String h (String l rest as tl) as s') =>
      match hexval h, hexval l with
      | Some x, Some y => String (ascii_of_N (16 * x + y)) (percent_decode rest)
      | _, _ => String "%" (percent_decode s')
      end
  | String a s' => String a (percent_decode s')
  | EmptyString => EmptyString
  end.

Fixpoint plus_to_space (s : string) : string :=
  match s with
  | EmptyString => EmptyString
  | String a s' => String (if Ascii.eqb a "+" then " "%char else a) (plus_to_space s')
  end.

Definition decode (s : string) : string := percent_decode (plus_to_space s).

Definition pair_of (piece : string) : string * string :=
  match drop_through "=" piece with
  | Some v => (decode (take_until "=" piece), decode v)
  | None => (decode piece, "")
  end.

Definition searchParams (reqUrl : string) : list (string * string) :=
  match query reqUrl with
  | None => []
  | Some q =>
      map pair_of (filter (fun p => negb (String.eqb p "")) (split_on "&" q))
  end.

Fixpoint assoc (name : string) (ps : list (string * string)) : option string :=
  match ps with
  | [] => None
  | (k, v) :: rest => if String.eqb k name then Some v else assoc name rest
  end.

(** [url.searchParams.get(name)]: the value of the first parameter of that
    name, [null] when there is none. Values are the decoded bytes; the handler
    tests them for emptiness and copies them into its messages. *)
Definition get (reqUrl name : string) : option string :=
  assoc name (searchParams reqUrl).

End Url.

(** ** Token records and the file system *)

(** The token record handled by the OAuth client ([Credentials] of the auth
    library) and stored in the credential file. A field that is [null] or
    missing is [None]. *)
Record Credentials : Type := mkCredentials {
  access_token : option string;
  refresh_token : option string;
  expiry_date : Js.num;
  scope : option string;
  token_type : option string
}.

(** The record of a client that has been given no tokens: [{}]. *)
Definition noCredentials : Credentials :=
  mkCredentials None None Js.Undefined None None.

Module Fs.

(** What a file holds: [Json c] is the text [JSON.stringify(c, null, 2)];
    [Garbage s] is any text that [JSON.parse] rejects. *)
Inductive data : Type :=
| Json (c : Credentials)
| Garbage (s : string).

Record file : Type := mkFile {
  content : data;
  mode : N
}.

(** [writes] is the journal of the calls of [writeFileSync] that succeeded,
    oldest first; it is not read by the code. *)
Record t : Type := mk {
  dirs : gset string;
  files : gmap string file;
  umask : N;
  writes : list (string * data)
}.

Definition is_dir (fs : t) (p : string) : bool := bool_decide (p ∈ dirs fs).

Definition is_file (fs : t) (p : string) : bool :=
  match files fs !! p with Some _ => true | None => false end.

(** [fs.existsSync(p)] *)
Definition existsSync (fs : t) (p : string) : bool := is_dir fs p || is_file fs p.

(** The directory part of a path: everything before its last [/]. The empty
    string stands for the root or the working directory, which exist. *)
Definition dirname (p : string) : string :=
  Js.substring p 0 (Js.lastIndexOf "/" p).

Definition dir_ok (fs : t) (d : string) : bool := String.eqb d "" || is_dir fs d.

(** The directories named on the way to [d], outermost first, [d] last. *)
Fixpoint ancestors_from (pre rest : string) : list string :=
  match rest with
  | EmptyString => match pre with EmptyString => [] | _ => [pre] end
  | String a rest' =>
      let here :=
        if Ascii.eqb a "/" then
          match pre with EmptyString => [] | _ => [pre] end
        else [] in
      here ++ ancestors_from (pre +:+ String a EmptyString) rest'
  end.

Definition ancestors (d : string) : list string := ancestors_from "" d.

(** [fs.mkdirSync(d, { recursive: true })]: creates [d] and the missing
    directories above it; throws when a file is in the way, at [d] itself or
    above it. *)
Definition mkdirSync_recursive (fs : t) (d : string) : string + t :=
  if is_file fs d then
    inl ("EEXIST: file already exists, mkdir '" +:+ d +:+ "'")
  else if existsb (is_file fs) (ancestors d) then
    inl ("ENOTDIR: not a directory, mkdir '" +:+ d +:+ "'")
  else
    inr (mk (dirs fs ∪ list_to_set (ancestors d)) (files fs) (umask fs) (writes fs)).

(** Permission bits of a file that [writeFileSync] creates: [0o666] without
    the bits of the process umask. *)
Definition default_mode (fs : t) : N := N.ldiff 438 (umask fs).

(** [fs.writeFileSync(p, text)] without options: an existing file is
    truncated and keeps its permission bits; otherwise the file is created
    with [default_mode] inside a directory that must exist. The call that
    succeeds is entered in the journal. *)
Definition writeFileSync (fs : t) (p : string) (d : data) : string + t :=
  match files fs !! p with
  | Some f =>
      inr (mk (dirs fs) (<[p := mkFile d (mode f)]> (files fs)) (umask fs)
              (writes fs ++ [(p, d)]))
  | None =>
      if is_dir fs p then
        inl ("EISDIR: illegal operation on a directory, open '" +:+ p +:+ "'")
      else if dir_ok fs (dirname p) then
        inr (mk (dirs fs) (<[p := mkFile d (default_mode fs)]> (files fs)) (umask fs)
                (writes fs ++ [(p, d)]))
      else if is_file fs (dirname p) then
        inl ("ENOTDIR: not a directory, open '" +:+ p +:+ "'")
      else
        inl ("ENOENT: no such file or directory, open '" +:+ p +:+ "'")
  end.

(** Nobody but the owner may read the file: no group or other bit is set. *)
Definition owner_only (f : file) : bool := N.eqb (N.land (mode f) 63) 0.

End Fs.


(** ** Port selector *)

Module Net.

(** [server.listen(port)] on the set of bound ports: the ['error'] event
    ([None]) when the port is taken, the ['listening'] event otherwise. *)
Definition listen (bound : gset N) (port : N) : option (gset N) :=
  if bool_decide (port ∈ bound) then None else Some (bound ∪ {[port]}).

(** [server.close()] of the listener on [port]. *)
Definition close (bound : gset N) (port : N) : gset N := bound ∖ {[port]}.

End Net.

Definition OAUTH_PORTS : list N := [3000; 3001; 3002]%N.

Definition OAUTH_TIMEOUT_MS : Z := 5 * 60 * 1000.

(** [isPortAvailable(port)]: the answer and the bound ports afterwards. *)
Definition isPortAvailable (port : N) (bound : gset N) : bool * gset N :=
  match Net.listen bound port with
  | None => (false, bound)
  | Some bound' => (true, Net.close bound' port)
  end.

(** The loop of [findAvailablePort] over the candidates still to try; [all]
    is the whole list, named in the error message. *)
Fixpoint findAvailablePort_loop (all rest : list N) (bound : gset N)
  : (string + N) * gset N :=
  match rest with
  | [] =>
      (inl ("No available ports found. Tried: " +:+ Js.join ", " (map Js.showN all)),
       bound)
  | port :: rest' =>
      let '(free, bound') := isPortAvailable port bound in
      if free then (inr port, bound') else findAvailablePort_loop all rest' bound'
  end.

Definition findAvailablePort_in (ports : list N) (bound : gset N)
  : (string + N) * gset N :=
  findAvailablePort_loop ports ports bound.

Definition findAvailablePort (bound : gset N) : (string + N) * gset N :=
  findAvailablePort_in OAUTH_PORTS bound.

(** ** The OAuth client and the refresh gate *)

(** What the module touches: the credentials held by the OAuth2 client object
    and the disk. *)
Record World : Type := mkWorld {
  credentials : option Credentials;
  disk : Fs.t
}.

(** [oauth2Client.setCredentials(c)] *)
Definition setCredentials (c : Credentials) (w : World) : World :=
  mkWorld (Some c) (disk w).

(** The credentials part of [loadOAuthClient]: a fresh client holds [{}]; the
    parsed credential file replaces it when the file exists and parses. *)
Definition loadCredentials (fs : Fs.t) (credentialsPath : string) : World :=
  match Fs.files fs !! credentialsPath with
  | Some f =>
      match Fs.content f with
      | Fs.Json c => mkWorld (Some c) fs
      | Fs.Garbage _ => mkWorld (Some noCredentials) fs
      end
  | None => mkWorld (Some noCredentials) fs
  end.

Definition expiryBuffer : Z := 5 * 60 * 1000.

(** [v - expiryBuffer] as JavaScript computes it: [undefined] gives [NaN]
    ([None]), [null] counts as [0]. *)
Definition minusBuffer (v : Js.num) : option Z :=
  match v with
  | Js.Undefined => None
  | Js.Null => Some (0 - expiryBuffer)%Z
  | Js.Number z => Some (z - expiryBuffer)%Z
  end.

(** [now >= x], false against [NaN]. *)
Definition ge_num (now : Z) (x : option Z) : bool :=
  match x with
  | Some v => (v <=? now)%Z
  | None => false
  end.

(** The test of line 214:
    [!expiryDate || Date.now() >= expiryDate - expiryBuffer]. *)
Definition needsRefresh (now : Z) (expiryDate : Js.num) : bool :=
  negb (Js.truthy_num expiryDate) || ge_num now (minusBuffer expiryDate).

Definition ERR_NO_CREDENTIALS : string :=
  "No credentials loaded. Authentication required.".

Definition ERR_NO_REFRESH_TOKEN : string :=
  "Token expired and no refresh token available. Re-authentication required.".

Definition refreshFailed (msg : string) : string :=
  "Failed to refresh token: " +:+ msg +:+ ". Re-authentication may be required.".

(** [refreshIfNeeded(oauth2Client, credentialsPath)]. [now] is [Date.now()];
    [reply] is how [oauth2Client.refreshAccessToken()] settles if it is
    called. The result is the thrown message or the returned boolean. *)
Definition refreshIfNeeded (now : Z) (reply : string + Credentials)
    (w : World) (credentialsPath : string) : (string + bool) * World :=
  match credentials w with
  | None => (inl ERR_NO_CREDENTIALS, w)
  | Some c =>
      if negb (Js.truthy (access_token c)) then (inl ERR_NO_CREDENTIALS, w)
      else if needsRefresh now (expiry_date c) then
        if negb (Js.truthy (refresh_token c)) then (inl ERR_NO_REFRESH_TOKEN, w)
        else
          match reply with
          | inl msg => (inl (refreshFailed msg), w)
          | inr newCredentials =>
              let w1 := setCredentials newCredentials w in
              match Fs.writeFileSync (disk w1) credentialsPath (Fs.Json newCredentials) with
              | inl msg => (inl (refreshFailed msg), w1)
              | inr fs' => (inr true, mkWorld (credentials w1) fs')
              end
          end
      else (inr false, w)
  end.

(** ** The interactive grant flow, [authenticate] *)

(** A call of [resolve] or of [reject] on the promise that [authenticate]
    returns. *)
Inductive settlement : Type :=
| Fulfilled
| Rejected (message : string).

Record response : Type := mkResponse {
  status : N;
  body : string
}.

(** The state of one call of [authenticate] after its listener is bound.
    [settled] logs the calls of [resolve]/[reject], [exchanged] the codes
    handed to [getToken], [responses] what was sent with [res.end]; [inflight]
    holds the codes whose [getToken] promise has not settled yet, each with a
    suspended run of the request handler behind it. *)
Record Session : Type := mkSession {
  isResolved : bool;
  timerArmed : bool;
  listening : bool;
  settled : list settlement;
  inflight : list string;
  exchanged : list string;
  responses : list response;
  world : World
}.

(** The session when the promise executor of lines 90-191 has run: the timer
    is set and the handlers are registered. *)
Definition awaiting (w : World) : Session :=
  mkSession false true true [] [] [] [] w.

(** The first part of [authenticate]: binding the listener. *)
Definition authenticate_listen (bound : gset N) (port : N) (w : World)
  : (string + Session) * gset N :=
  match Net.listen bound port with
  | None =>
      (inl ("Port " +:+ Js.showN port +:+ " is already in use. Try a different port."),
       bound)
  | Some bound' => (inr (awaiting w), bound')
  end.

(** [res.writeHead(status); res.end(body)] *)
Definition respond (st : Session) (status : N) (body : string) : Session :=
  mkSession (isResolved st) (timerArmed st) (listening st) (settled st)
    (inflight st) (exchanged st) (responses st ++ [mkResponse status body])
    (world st).

Definition set_world (st : Session) (w : World) : Session :=
  mkSession (isResolved st) (timerArmed st) (listening st) (settled st)
    (inflight st) (exchanged st) (responses st) w.

Definition set_inflight (st : Session) (codes : list string) : Session :=
  mkSession (isResolved st) (timerArmed st) (listening st) (settled st)
    codes (exchanged st) (responses st) (world st).

(** [cleanup(error, success)], lines 95-107. *)
Definition cleanup (st : Session) (error : option string) : Session :=
  if isResolved st then st
  else
    mkSession true false false
      (settled st ++ [match error with Some e => Rejected e | None => Fulfilled end])
      (inflight st) (exchanged st) (responses st) (world st).

Definition ERR_TIMEOUT : string :=
  "OAuth authentication timed out after 5 minutes. Please try again.".

Definition nl : string := String (ascii_of_nat 10) EmptyString.
Definition dq : string := String (ascii_of_nat 34) EmptyString.

Definition successPage : string :=
  nl +:+
  "                    <html>" +:+ nl +:+
  "                        <body style=" +:+ dq +:+
  "font-family: sans-serif; text-align: center; padding-top: 50px;" +:+ dq +:+ ">" +:+ nl +:+
  "                            <h1>Authentication Successful!</h1>" +:+ nl +:+
  "                            <p>You can close this window and return to the terminal.</p>" +:+ nl +:+
  "                        </body>" +:+ nl +:+
  "                    </html>" +:+ nl +:+
  "                ".

(** Lines 163-167: the directory of the path is created when it is named and
    missing, then the record is written. The result is the message of what was
    thrown, if anything, and the disk as it is left. *)
Definition saveTokens (fs : Fs.t) (credentialsPath : string) (tokens : Credentials)
  : option string * Fs.t :=
  let dir := Js.substring credentialsPath 0 (Js.lastIndexOf "/" credentialsPath) in
  let made :=
    if negb (String.eqb dir "") && negb (Fs.existsSync fs dir)
    then Fs.mkdirSync_recursive fs dir
    else inr fs in
  match made with
  | inl msg => (Some msg, fs)
  | inr fs1 =>
      match Fs.writeFileSync fs1 credentialsPath (Fs.Json tokens) with
      | inl msg => (Some msg, fs1)
      | inr fs2 => (None, fs2)
      end
  end.

(** The [catch] block, lines 180-184. *)
Definition exchangeFailed (st : Session) (msg : string) : Session :=
  cleanup (respond st 500 ("Authentication failed: " +:+ msg))
    (Some ("Failed to exchange authorization code: " +:+ msg)).

(** The request handler up to its [await], lines 130-159. *)
Definition on_code (st : Session) (u : string) : Session :=
  match Url.get u "code" with
  | Some code =>
      if Js.truthy (Some code) then
        mkSession (isResolved st) (timerArmed st) (listening st) (settled st)
          (inflight st ++ [code]) (exchanged st ++ [code]) (responses st) (world st)
      else
        cleanup (respond st 400 "No authorization code provided")
          (Some "No authorization code provided in callback")
  | None =>
      cleanup (respond st 400 "No authorization code provided")
        (Some "No authorization code provided in callback")
  end.

Definition on_request (st : Session) (url : option string) : Session :=
  match url with
  | None => respond st 404 "Not found"
  | Some u =>
      if negb (Js.startsWith u "/oauth2callback") then respond st 404 "Not found"
      else
        match Url.get u "error" with
        | Some error =>
            if Js.truthy (Some error) then
              cleanup
                (respond st 400 ("Authentication was cancelled or failed: " +:+ error))
                (Some ("Authentication cancelled: " +:+ error))
            else on_code st u
        | None => on_code st u
        end
  end.

Fixpoint remove_first (code : string) (codes : list string) : list string :=
  match codes with
  | [] => []
  | c :: rest => if String.eqb c code then rest else c :: remove_first code rest
  end.

(** The rest of the request handler, lines 159-184, run when the [getToken]
    promise of [code] settles with [reply]. *)
Definition on_token_reply (credentialsPath : string) (st : Session)
    (code : string) (reply : string + Credentials) : Session :=
  if negb (existsb (String.eqb code) (inflight st)) then st
  else
    let st0 := set_inflight st (remove_first code (inflight st)) in
    match reply with
    | inl msg => exchangeFailed st0 msg
    | inr tokens =>
        let w1 := setCredentials tokens (world st0) in
        match saveTokens (disk w1) credentialsPath tokens with
        | (Some msg, fs') =>
            exchangeFailed (set_world st0 (mkWorld (credentials w1) fs')) msg
        | (None, fs') =>
            cleanup
              (respond (set_world st0 (mkWorld (credentials w1) fs')) 200 successPage)
              None
        end
    end.

(** What the event loop can deliver to the session. A ['request'] event is
    delivered for as long as its connection lives, which [server.close()] does
    not end; the timer callback and the ['error'] handler are modelled as
    code, whether or not the runtime would still call them. *)
Inductive event : Type :=
| Request (url : option string)
| TokenReply (code : string) (reply : string + Credentials)
| TimerFired
| ServerError (message : string).

Definition step (credentialsPath : string) (st : Session) (ev : event) : Session :=
  match ev with
  | Request url => on_request st url
  | TokenReply code reply => on_token_reply credentialsPath st code reply
  | TimerFired => cleanup st (Some ERR_TIMEOUT)
  | ServerError message => cleanup st (Some message)
  end.

Definition run (credentialsPath : string) (st : Session) (evs : list event) : Session :=
  fold_left (step credentialsPath) evs st.

(** ** Notions of the specification *)

(** The expiry instant of a record as the data model has it: an optional
    instant, absent when the field is missing or [null]. *)
Definition expiryTimestamp (c : Credentials) : option Z :=
  match expiry_date c with
  | Js.Number z => Some z
  | _ => None
  end.

(** The refresh policy in the words of the specification: a record needs
    refresh when its expiry instant is absent, or when now is within the
    five-minute lookahead window of it (or past it). *)
Definition spec_needs_refresh (now : Z) (c : Credentials) : Prop :=
  expiryTimestamp c = None ∨
  ∃ e, expiryTimestamp c = Some e ∧ (e - 5 * 60 * 1000 <= now)%Z.

(** The record [c] was loaded from the credential file at [path]. *)
Definition loaded_from (w : World) (path : string) (c : Credentials) : Prop :=
  w = loadCredentials (disk w) path ∧
  ∃ f, Fs.files (disk w) !! path = Some f ∧ Fs.content f = Fs.Json c.

(** The record that the specification expects on disk after an exchange: the
    response, with the refresh token of the previously stored record when the
    response has none. *)
Definition spec_written_record (response previous : Credentials) : Credentials :=
  match refresh_token response with
  | Some _ => response
  | None =>
      mkCredentials (access_token response) (refresh_token previous)
        (expiry_date response) (scope response) (token_type response)
  end.

(** What is stored at [path], if anything. *)
Definition stored_at (fs : Fs.t) (path : string) : option Fs.data :=
  Fs.content <$> (Fs.files fs !! path).

Definition mode_at (fs : Fs.t) (path : string) : option N :=
  Fs.mode <$> (Fs.files fs !! path).

(** The events after which the disk may differ: a token exchange that
    succeeds. *)
Definition is_grant_reply (ev : event) : bool :=
  match ev with
  | TokenReply _ (inr _) => true
  | _ => false
  end.

(** The invariant of a session: the log of settlements has one entry when the
    guard flag is set and none before, and a resolved session has its timer
    cancelled and its listener released. *)
Definition settled_once (st : Session) : Prop :=
  length (settled st) = (if isResolved st then 1 else 0) ∧
  (isResolved st = true → timerArmed st = false ∧ listening st = false).

(** ** A concrete installation, used in the examples *)

Module Scenario.

Definition home : string := "/home/u/.safe-gmail-mcp".
Definition path : string := "/home/u/.safe-gmail-mcp/credentials.json".
Definition gmail_modify : string := "https://www.googleapis.com/auth/gmail.modify".

(** The record on disk before the call. *)
Definition stored : Credentials :=
  mkCredentials (Some "A0") (Some "R0") (Js.Number 1000000)
    (Some gmail_modify) (Some "Bearer").

(** An exchange response without a refresh token. *)
Definition issued : Credentials :=
  mkCredentials (Some "A1") None (Js.Number 5000000)
    (Some gmail_modify) (Some "Bearer").

(** A disk that holds the stored record, readable by its owner only, for a
    process with umask [0o022]. *)
Definition disk0 : Fs.t :=
  Fs.mk (list_to_set (Fs.ancestors home))
        {[ path := Fs.mkFile (Fs.Json stored) 384 ]} 18 [].

(** An empty disk, same umask. *)
Definition blank : Fs.t := Fs.mk ∅ ∅ 18 [].

Definition w0 : World := loadCredentials disk0 path.

Definition wblank : World := mkWorld (Some stored) blank.

End Scenario.

(** ** Key files: parsed JSON and what the code reads from it *)

Module Json.

(** A value that [JSON.parse] returns. Numbers are integral here; the code
    only tests them for truthiness. *)
#[warnings="-register-all"] Inductive value : Type :=
| Null
| Bool (b : bool)
| Num (z : Z)
| Str (s : string)
| Arr (items : list value)
| Obj (fields : list (string * value)).

(** What reading a property gives: a [TypeError], [undefined], or a value. *)
Inductive access : Type :=
| Throws
| Absent
| Found (v : value).

(** The field of an object literal: of duplicate keys the last one counts. *)
Fixpoint field (k : string) (fields : list (string * value)) : option value :=
  match fields with
  | [] => None
  | (k', v) :: rest =>
      match field k rest with
      | Some later => Some later
      | None => if String.eqb k' k then Some v else None
      end
  end.

(** [v.k], for the property names that the module reads ([type], [web],
    [installed], [client_id], [client_secret], [redirect_uris]); none of them
    is inherited from a prototype. *)
Definition prop (v : value) (k : string) : access :=
  match v with
  | Null => Throws
  | Obj fields =>
      match field k fields with
      | Some x => Found x
      | None => Absent
      end
  | _ => Absent
  end.

(** [k in v], for the same names: a [TypeError] ([None]) unless [v] is an
    object or an array. *)
Definition has (k : string) (v : value) : option bool :=
  match v with
  | Obj fields =>
      Some (match field k fields with Some _ => true | None => false end)
  | Arr _ => Some false
  | _ => None
  end.

Definition truthy_value (v : value) : bool :=
  match v with
  | Null => false
  | Bool b => b
  | Num z => negb (Z.eqb z 0)
  | Str s => negb (String.eqb s "")
  | Arr _ => true
  | Obj _ => true
  end.

Definition truthy (a : access) : bool :=
  match a with
  | Found v => truthy_value v
  | _ => false
  end.

(** [a === s] for a string literal [s]. *)
Definition is_string (a : access) (s : string) : bool :=
  match a with
  | Found (Str t) => String.eqb t s
  | _ => false
  end.

(** [s.endsWith(suffix)] *)
Definition endsWith (s suffix : string) : bool :=
  (String.length suffix <=? String.length s)%nat &&
  String.eqb
    (String.substring (String.length s - String.length suffix)
                      (String.length suffix) s)
    suffix.

End Json.

(** What is found at the path of the key file: nothing, something that
    [readFileSync] or [JSON.parse] throws on, or a parsed value. *)
Inductive keyfile : Type :=
| NoFile
| Unreadable
| Parsed (data : Json.value).

(** The result of [validateOAuthFile]: one of its two result shapes, or a
    [TypeError] thrown on the way. *)
Inductive validation : Type :=
| Valid (clientId : string)
| Invalid (error : string)
| ValidationThrows.

Definition CLIENT_ID_SUFFIX : string := ".apps.googleusercontent.com".

(** Checks 6 to 9 of [validateOAuthFile], on [keys = data.installed]. *)
Definition validateKeys (keys : Json.access) : validation :=
  match keys with
  | Json.Found k =>
      match Json.prop k "client_id" with
      | Json.Throws => ValidationThrows
      | client_id =>
          if negb (Json.truthy client_id) then
            Invalid "Invalid OAuth file - missing client_id"
          else
            match client_id with
            | Json.Found (Json.Str s) =>
                if negb (Json.endsWith s CLIENT_ID_SUFFIX) then
                  Invalid "Invalid client_id format"
                else if negb (Json.truthy (Json.prop k "client_secret")) then
                  Invalid "Invalid OAuth file - missing client_secret"
                else if negb (Json.truthy (Json.prop k "redirect_uris")) then
                  Invalid "Invalid OAuth file - missing redirect_uris"
                else Valid s
            | _ => ValidationThrows
            end
      end
  | _ => ValidationThrows
  end.

(** [validateOAuthFile(filePath)] of [utils/oauth-validator.js]. *)
Definition validateOAuthFile (filePath : string) (kf : keyfile) : validation :=
  match kf with
  | NoFile => Invalid ("File not found: " +:+ filePath)
  | Unreadable => Invalid "Invalid JSON file - check file is complete"
  | Parsed data =>
      match Json.prop data "type" with
      | Json.Throws => ValidationThrows
      | type =>
          if Json.is_string type "service_account" then
            Invalid "This is a service account. Create OAuth Client ID > Desktop app instead."
          else
            match Json.has "web" data with
            | None => ValidationThrows
            | Some true => Invalid "This is a Web app OAuth. Create Desktop app instead."
            | Some false =>
                match Json.has "installed" data with
                | None => ValidationThrows
                | Some false =>
                    Invalid "Invalid OAuth file format - expected Desktop app credentials"
                | Some true => validateKeys (Json.prop data "installed")
                end
            end
      end
  end.

(** The key file as the validator wants it: an object without a [web] entry
    and not marked as a service account, whose [installed] entry carries a
    client id of the Google form, a client secret and redirect URIs. *)
Definition desktop_keys (data : Json.value) (clientId : string) : Prop :=
  ∃ fields keys pre,
    data = Json.Obj fields ∧
    Json.is_string (Json.prop data "type") "service_account" = false ∧
    Json.field "web" fields = None ∧
    Json.field "installed" fields = Some keys ∧
    Json.prop keys "client_id" = Json.Found (Json.Str clientId) ∧
    clientId = pre +:+ ".apps.googleusercontent.com" ∧
    Json.truthy (Json.prop keys "client_secret") = true ∧
    Json.truthy (Json.prop keys "redirect_uris") = true.

(** The parsed key files on which the validator throws a [TypeError] instead
    of returning a verdict: a value that is neither object nor array, or a
    desktop-looking object whose [installed] entry is [null] or has a
    client id that is truthy and not a string. *)
Definition breaks_validator (data : Json.value) : Prop :=
  match data with
  | Json.Arr _ => False
  | Json.Obj fields =>
      Json.is_string (Json.prop data "type") "service_account" = false ∧
      Json.field "web" fields = None ∧
      ∃ keys,
        Json.field "installed" fields = Some keys ∧
        (keys = Json.Null ∨
         ∃ v, Json.prop keys "client_id" = Json.Found v ∧
              Json.truthy_value v = true ∧ ∀ s, v ≠ Json.Str s)
  | _ => True
  end.

(** ** [loadOAuthClient] *)

(** What [loadOAuthClient] throws: an [Error] with its message, or what
    [JSON.parse] and property access throw. *)
Inductive failure : Type :=
| Error (message : string)
| ParseError
| TypeError.

(** The client and port that [loadOAuthClient] returns. [warned] tells
    whether the warning about unusable credentials was printed. *)
Record Loaded : Type := mkLoaded {
  client_id : Json.access;
  client_secret : Json.access;
  redirectUri : string;
  authPort : N;
  warned : bool;
  client : World
}.

Definition ERR_KEYS_FORMAT : string :=
  "Invalid OAuth keys file format. File should contain either " +:+ dq +:+
  "installed" +:+ dq +:+ " or " +:+ dq +:+ "web" +:+ dq +:+ " credentials.".

(** Whether lines 53-61 end in the [catch]: something is at the path and it
    does not read as JSON. *)
Definition credentialsUnusable (fs : Fs.t) (credentialsPath : string) : bool :=
  Fs.existsSync fs credentialsPath &&
  match Fs.files fs !! credentialsPath with
  | Some f => match Fs.content f with Fs.Json _ => false | Fs.Garbage _ => true end
  | None => true
  end.

Definition loadOAuthClient (oauthPath : string) (kf : keyfile)
    (credentialsPath : string) (fs : Fs.t) (bound : gset N)
  : (failure + Loaded) * gset N :=
  match kf with
  | NoFile => (inl (Error ("OAuth keys file not found at: " +:+ oauthPath)), bound)
  | Unreadable => (inl ParseError, bound)
  | Parsed keysContent =>
      match Json.prop keysContent "installed" with
      | Json.Throws => (inl TypeError, bound)
      | installed =>
          let keys :=
            if Json.truthy installed then installed
            else Json.prop keysContent "web" in
          if negb (Json.truthy keys) then (inl (Error ERR_KEYS_FORMAT), bound)
          else
            match findAvailablePort bound with
            | (inl message, bound') => (inl (Error message), bound')
            | (inr port, bound') =>
                (inr (mkLoaded
                        (match keys with Json.Found k => Json.prop k "client_id" | a => a end)
                        (match keys with Json.Found k => Json.prop k "client_secret" | a => a end)
                        ("http://localhost:" +:+ Js.showN port +:+ "/oauth2callback")
                        port
                        (credentialsUnusable fs credentialsPath)
                        (loadCredentials fs credentialsPath)),
                 bound')
            end
      end
  end.

(** ** Callers *)

(** How the start of the server ends (index, [loadCredentials] and the head
    of [main]): the process exits with status 1, the interactive flow is
    entered, or the server goes on with a usable client. What is printed is
    left out. *)
Inductive startup : Type :=
| ExitFailure
| Authenticating (flow : string + Session)
| Serving (w : World).

(** [argv2] is [process.argv[2]]; [now] and [reply] are the inputs of
    [refreshIfNeeded]. *)
Definition startServer (argv2 : option string) (oauthPath : string) (kf : keyfile)
    (credentialsPath : string) (fs : Fs.t) (bound : gset N)
    (now : Z) (reply : string + Credentials) : startup * gset N :=
  match loadOAuthClient oauthPath kf credentialsPath fs bound with
  | (inl _, bound') => (ExitFailure, bound')
  | (inr loaded, bound') =>
      if match argv2 with Some a => String.eqb a "auth" | None => false end then
        let '(flow, bound'') := authenticate_listen bound' (authPort loaded) (client loaded) in
        (Authenticating flow, bound'')
      else
        match refreshIfNeeded now reply (client loaded) credentialsPath with
        | (inl _, _) => (ExitFailure, bound')
        | (inr _, w) => (Serving w, bound')
        end
  end.

(** The verdict of the status command on the stored record (status, lines
    73-86): [now] against [expiry_date], with no lookahead. *)
Inductive tokenStatus : Type :=
| StatusValid
| StatusExpiredWillRefresh
| StatusExpiredNoRefreshToken.

Definition statusOfToken (now : Z) (c : Credentials) : tokenStatus :=
  if Js.truthy_num (expiry_date c) &&
     ge_num now (match expiry_date c with
                 | Js.Number z => Some z
                 | Js.Null => Some 0%Z
                 | Js.Undefined => None
                 end)
  then
    if Js.truthy (refresh_token c) then StatusExpiredWillRefresh
    else StatusExpiredNoRefreshToken
  else StatusValid.

(** [fs.chmodSync(p, mode)]: the model keeps permission bits for files only. *)
Definition chmodSync (fs : Fs.t) (p : string) (mode : N) : string + Fs.t :=
  match Fs.files fs !! p with
  | Some f =>
      inr (Fs.mk (Fs.dirs fs) (<[p := Fs.mkFile (Fs.content f) mode]> (Fs.files fs))
                 (Fs.umask fs) (Fs.writes fs))
  | None =>
      if Fs.is_dir fs p then inr fs
      else inl ("ENOENT: no such file or directory, chmod '" +:+ p +:+ "'")
  end.

(** [fs.unlinkSync(p)] *)
Definition unlinkSync (fs : Fs.t) (p : string) : string + Fs.t :=
  match Fs.files fs !! p with
  | Some _ =>
      inr (Fs.mk (Fs.dirs fs) (delete p (Fs.files fs)) (Fs.umask fs) (Fs.writes fs))
  | None =>
      if Fs.is_dir fs p then
        inl ("EPERM: operation not permitted, unlink '" +:+ p +:+ "'")
      else inl ("ENOENT: no such file or directory, unlink '" +:+ p +:+ "'")
  end.

(** The end of [runAuthFlow] in the setup wizard, after [authenticate] has
    returned: the credential file is restricted to its owner. *)
Definition secureCredentials (fs : Fs.t) (credentialsPath : string) : string + Fs.t :=
  if Fs.existsSync fs credentialsPath then chmodSync fs credentialsPath 384
  else inr fs.

(** [cleanup()] of the setup wizard: a credential file that does not parse is
    removed. The result is what escapes the function, if anything, and the
    disk. *)
Definition wizardCleanup (fs : Fs.t) (credentialsPath : string) : option string * Fs.t :=
  if Fs.existsSync fs credentialsPath then
    match Fs.files fs !! credentialsPath with
    | Some f =>
        match Fs.content f with
        | Fs.Json _ => (None, fs)
        | Fs.Garbage _ =>
            match unlinkSync fs credentialsPath with
            | inl msg => (Some msg, fs)
            | inr fs' => (None, fs')
            end
        end
    | None =>
        match unlinkSync fs credentialsPath with
        | inl msg => (Some msg, fs)
        | inr fs' => (None, fs')
        end
    end
  else (None, fs).

(** The number of ['request'] events among [evs]. *)
Definition count_requests (evs : list event) : nat :=
  length (List.filter (λ ev, match ev with Request _ => true | _ => false end) evs).

(** ** Key files used in the examples *)

Module Keys.

Definition oauthPath : string := "/home/u/.safe-gmail-mcp/gcp-oauth.keys.json".

Definition clientId : string := "1234-abc.apps.googleusercontent.com".

Definition entries : Json.value :=
  Json.Obj [("client_id", Json.Str clientId);
            ("client_secret", Json.Str "s3cret");
            ("redirect_uris", Json.Arr [Json.Str "http://localhost"])].

(** A desktop-app key file. *)
Definition desktop : Json.value := Json.Obj [("installed", entries)].

(** A web-app key file. *)
Definition web : Json.value := Json.Obj [("web", entries)].

(** A desktop-looking file whose client id is a number. *)
Definition numeric_id : Json.value :=
  Json.Obj [("installed", Json.Obj [("client_id", Json.Num 1234)])].

End Keys.

(** Whether the character occurs in the string. *)
Fixpoint has_char (c : ascii) (s : string) : bool :=
  match s with
  | EmptyString => false
  | String a s' => Ascii.eqb a c || has_char c s'
  end.

(** A URL that the request handler does not take for a callback. *)
Definition stray (url : option string) : bool :=
  negb (match url with
        | Some u => Js.startsWith u "/oauth2callback"
        | None => false
        end).

Module Scenario2.

(** A credential path that names a directory of [Scenario.disk0]: every
    write to it throws. *)
Definition dirpath : string := Scenario.home.

Definition wdir : World := loadCredentials Scenario.disk0 dirpath.

(** A refreshed record that is fresh for a long time. *)
Definition renewed : Credentials :=
  mkCredentials (Some "A2") (Some "R0") (Js.Number 9000000)
    (Some Scenario.gmail_modify) (Some "Bearer").

End Scenario2.

(** ** The handlers with their exceptions

    The handlers of [authenticate] once more, this time with what can be
    thrown inside them made explicit: the [await] of a rejected [getToken],
    [mkdirSync] and [writeFileSync] throw, and the [try]/[catch] of lines
    157-184 is a combinator. A computation takes the session to a result,
    a thrown message or a value, and the session it leaves. *)

Module Exn.

Definition M (A : Type) : Type := Session → (string + A) * Session.

Definition ret {A : Type} (a : A) : M A := λ st, (inr a, st).

Definition throw {A : Type} (msg : string) : M A := λ st, (inl msg, st).

Definition bind {A B : Type} (m : M A) (k : A → M B) : M B :=
  λ st,
    match m st with
    | (inl e, st') => (inl e, st')
    | (inr a, st') => k a st'
    end.

(** [try { body } catch (err) { handler(err.message) }] *)
Definition try_catch {A : Type} (body : M A) (handler : string → M A) : M A :=
  λ st,
    match body st with
    | (inl e, st') => handler e st'
    | (inr a, st') => (inr a, st')
    end.

Definition modify (f : Session → Session) : M unit := λ st, (inr tt, f st).

Definition gets {A : Type} (f : Session → A) : M A := λ st, (inr (f st), st).

Notation "'let!' x ':=' m 'in' k" := (bind m (λ x, k))
  (at level 10, x name, m at level 100, k at level 200).
Notation "'run!' m 'in' k" := (bind m (λ _, k))
  (at level 10, m at level 100, k at level 200).

(** [await oauth2Client.getToken(code)] once the promise has settled. *)
Definition awaitToken (reply : string + Credentials) : M Credentials :=
  match reply with
  | inl msg => throw msg
  | inr tokens => ret tokens
  end.

Definition on_disk (op : Fs.t → string + Fs.t) : M unit :=
  λ st,
    match op (disk (world st)) with
    | inl msg => (inl msg, st)
    | inr fs' => (inr tt, set_world st (mkWorld (credentials (world st)) fs'))
    end.

Definition mkdirSync (dir : string) : M unit :=
  on_disk (λ fs, Fs.mkdirSync_recursive fs dir).

Definition writeFileSync (path : string) (d : Fs.data) : M unit :=
  on_disk (λ fs, Fs.writeFileSync fs path d).

Definition existsSync (p : string) : M bool :=
  gets (λ st, Fs.existsSync (disk (world st)) p).

(** Lines 157-184: the handler from its [await] on. *)
Definition after_getToken (credentialsPath : string) (reply : string + Credentials)
  : M unit :=
  try_catch
    (let! tokens := awaitToken reply in
     run! modify (λ st, set_world st (setCredentials tokens (world st))) in
     let dir :=
       Js.substring credentialsPath 0 (Js.lastIndexOf "/" credentialsPath) in
     let! missing :=
       (if negb (String.eqb dir "")
        then (let! present := existsSync dir in ret (negb present))
        else ret false) in
     run! (if missing then mkdirSync dir else ret tt) in
     run! writeFileSync credentialsPath (Fs.Json tokens) in
     run! modify (λ st, respond st 200 successPage) in
     modify (λ st, cleanup st None))
    (λ msg,
       run! modify (λ st, respond st 500 ("Authentication failed: " +:+ msg)) in
       modify (λ st,
                 cleanup st (Some ("Failed to exchange authorization code: " +:+ msg)))).

(** The run of a handler on an event: its result is [inl] when an exception
    leaves the handler. *)
Definition deliver (credentialsPath : string) (ev : event) : M unit :=
  match ev with
  | Request url => modify (λ st, on_request st url)
  | TokenReply code reply =>
      λ st,
        if negb (existsb (String.eqb code) (inflight st)) then (inr tt, st)
        else
          after_getToken credentialsPath reply
            (set_inflight st (remove_first code (inflight st)))
  | TimerFired => modify (λ st, cleanup st (Some ERR_TIMEOUT))
  | ServerError message => modify (λ st, cleanup st (Some message))
  end.

End Exn.

(** The record with its [expiry_date] removed. *)
Definition without_expiry (c : Credentials) : Credentials :=
  mkCredentials (access_token c) (refresh_token c) Js.Undefined
    (scope c) (token_type c).

Module Scenario3.

(** The stored record with [expiry_date: 0]. *)
Definition zero_expiry : Credentials :=
  mkCredentials (Some "A0") (Some "R0") (Js.Number 0)
    (Some Scenario.gmail_modify) (Some "Bearer").

Definition wzero : World := mkWorld (Some zero_expiry) Scenario.disk0.

End Scenario3.

(** * Properties *)

Open Scope list_scope.

(** ** Strings, paths and query parameters *)

Example lastIndexOf_ex1 : Js.lastIndexOf "/" "/home/u/.safe-gmail-mcp/credentials.json" = 23%Z.
Proof. reflexivity. Qed.

Example lastIndexOf_ex2 : Js.lastIndexOf "/" "credentials.json" = (-1)%Z.
Proof. reflexivity. Qed.

Example substring_ex1 :
  Js.substring "/home/u/.safe-gmail-mcp/credentials.json" 0 23 = "/home/u/.safe-gmail-mcp".
Proof. reflexivity. Qed.

Example substring_ex2 : Js.substring "credentials.json" 0 (-1) = "".
Proof. reflexivity. Qed.

Example get_ex1 : Url.get "/oauth2callback?code=4%2F0Ab&scope=a+b" "code" = Some "4/0Ab".
Proof. reflexivity. Qed.

Example get_ex2 : Url.get "/oauth2callback?code=x&error=access_denied#f" "error" = Some "access_denied".
Proof. reflexivity. Qed.

Example get_ex3 : Url.get "/oauth2callback?error=&code=abc" "error" = Some "".
Proof. reflexivity. Qed.

Example get_ex4 : Url.get "/oauth2callback" "code" = None.
Proof. reflexivity. Qed.

Example ancestors_ex1 : Fs.ancestors "/home/u/.safe-gmail-mcp" = ["/home"; "/home/u"; "/home/u/.safe-gmail-mcp"].
Proof. reflexivity. Qed.

Example ancestors_ex2 : Fs.ancestors "conf/auth" = ["conf"; "conf/auth"].
Proof. reflexivity. Qed.

Example dirname_ex1 : Fs.dirname "/credentials.json" = "".
Proof. reflexivity. Qed.

Example expiryBuffer_ms : expiryBuffer = 300000%Z.
Proof. reflexivity. Qed.

Example needsRefresh_ex1 : needsRefresh 700000 (Js.Number 1000000) = true.
Proof. reflexivity. Qed.

Example needsRefresh_ex2 : needsRefresh 699999 (Js.Number 1000000) = false.
Proof. reflexivity. Qed.

(** ** Port selector *)

Lemma isPortAvailable_bound (port : N) (bound : gset N) :
  port ∈ bound → isPortAvailable port bound = (false, bound).
Proof.
  intros Hin. unfold isPortAvailable, Net.listen.
  rewrite bool_decide_eq_true_2 by exact Hin. reflexivity.
Qed.

Lemma isPortAvailable_free (port : N) (bound : gset N) :
  port ∉ bound → isPortAvailable port bound = (true, bound).
Proof.
  intros Hout. unfold isPortAvailable, Net.listen, Net.close.
  rewrite bool_decide_eq_false_2 by exact Hout.
  f_equal. apply set_eq. intros x.
  rewrite elem_of_difference, elem_of_union, elem_of_singleton.
  split.
  - intros [[Hx | Hx] Hne]; [exact Hx | contradiction].
  - intros Hx. split; [left; exact Hx | intros ->; contradiction].
Qed.

(** A probe never leaves a listener behind. *)
Lemma isPortAvailable_releases (port : N) (bound : gset N) :
  snd (isPortAvailable port bound) = bound.
Proof.
  destruct (decide (port ∈ bound)) as [Hin | Hout].
  - rewrite isPortAvailable_bound by exact Hin. reflexivity.
  - rewrite isPortAvailable_free by exact Hout. reflexivity.
Qed.

Lemma loop_all_bound (all rest : list N) (bound : gset N) :
  Forall (λ p, p ∈ bound) rest →
  findAvailablePort_loop all rest bound =
    (inl ("No available ports found. Tried: " +:+ Js.join ", " (map Js.showN all)), bound).
Proof.
  intros Hall. induction Hall as [| p rest Hp Hall IH]; simpl.
  - reflexivity.
  - rewrite isPortAvailable_bound by exact Hp. exact IH.
Qed.

Lemma loop_first_free (all before after : list N) (q : N) (bound : gset N) :
  Forall (λ p, p ∈ bound) before → q ∉ bound →
  findAvailablePort_loop all (before ++ q :: after) bound = (inr q, bound).
Proof.
  intros Hall Hq. induction Hall as [| p before Hp Hall IH]; simpl.
  - rewrite isPortAvailable_free by exact Hq. reflexivity.
  - rewrite isPortAvailable_bound by exact Hp. exact IH.
Qed.

(** A list with a free port splits at its first free port. *)
Lemma first_free_split (ports : list N) (bound : gset N) (p : N) :
  p ∈ ports → p ∉ bound →
  ∃ before q after,
    ports = before ++ (q :: after) ∧ Forall (λ x, x ∈ bound) before ∧ q ∉ bound.
Proof.
  induction ports as [| a ports IH]; intros Hin Hfree.
  - inversion Hin.
  - destruct (decide (a ∈ bound)) as [Ha | Ha].
    + assert (Hp : p ∈ ports).
      { apply elem_of_cons in Hin as [-> | Hp]; [contradiction | exact Hp]. }
      destruct (IH Hp Hfree) as (before & q & after & -> & Hall & Hq).
      exists (a :: before), q, after. repeat split.
      * constructor; assumption.
      * exact Hq.
    + exists [], a, ports. repeat split.
      * constructor.
      * exact Ha.
Qed.

(** C7: on a candidate list with a free port the selector returns the first
    free port of the list, and on a list whose ports are all bound it fails
    with the no-port error; in both cases the set of bound ports is left as it
    was found. *)
Theorem findAvailablePort_first_fit (ports : list N) (bound : gset N) :
  (∀ p, p ∈ ports → p ∉ bound →
     ∃ before q after,
       ports = before ++ (q :: after) ∧
       Forall (λ x, x ∈ bound) before ∧ (q ∉ bound) ∧
       findAvailablePort_in ports bound = (inr q, bound))
  ∧
  (Forall (λ x, x ∈ bound) ports →
     findAvailablePort_in ports bound =
       (inl ("No available ports found. Tried: " +:+ Js.join ", " (map Js.showN ports)),
        bound)).
Proof.
  split.
  - intros p Hin Hfree.
    destruct (first_free_split ports bound p Hin Hfree)
      as (before & q & after & Heq & Hall & Hq).
    exists before, q, after. repeat split; try assumption.
    unfold findAvailablePort_in. rewrite Heq at 2.
    apply loop_first_free; assumption.
  - intros Hall. unfold findAvailablePort_in. apply loop_all_bound, Hall.
Qed.

Lemma findAvailablePort_first_fit_witness :
  (∃ q, findAvailablePort_in OAUTH_PORTS {[3000%N]} = (inr q, {[3000%N]})) ∧
  findAvailablePort_in OAUTH_PORTS (list_to_set OAUTH_PORTS) =
    (inl "No available ports found. Tried: 3000, 3001, 3002", list_to_set OAUTH_PORTS).
Proof.
  split.
  - destruct (findAvailablePort_first_fit OAUTH_PORTS {[3000%N]}) as [Hfree _].
    destruct (Hfree 3001%N) as (before & q & after & _ & _ & _ & Hres).
    + unfold OAUTH_PORTS. apply elem_of_cons. right. apply elem_of_cons. left. reflexivity.
    + intros Hin. apply elem_of_singleton in Hin. discriminate Hin.
    + exists q. exact Hres.
  - destruct (findAvailablePort_first_fit OAUTH_PORTS (list_to_set OAUTH_PORTS)) as [_ Hnone].
    apply Hnone. apply Forall_forall. intros x Hx. apply elem_of_list_to_set. exact Hx.
Defined.

Example findAvailablePort_ex1 : findAvailablePort {[3000%N; 3002%N]} = (inr 3001%N, {[3000%N; 3002%N]}).
Proof. vm_compute. reflexivity. Qed.

Example findAvailablePort_ex2 : fst (findAvailablePort ∅) = inr 3000%N.
Proof. vm_compute. reflexivity. Qed.

(** ** File system *)

Lemma append_empty_r (s : string) : s +:+ "" = s.
Proof.
  induction s as [| a s IH]; [reflexivity |].
  change (String a (s +:+ "") = String a s). f_equal. exact IH.
Qed.

Lemma append_snoc (s t : string) (a : ascii) :
  (s +:+ String a EmptyString) +:+ t = s +:+ String a t.
Proof.
  induction s as [| b s IH]; [reflexivity |].
  change (String b ((s +:+ String a EmptyString) +:+ t) = String b (s +:+ String a t)).
  f_equal. exact IH.
Qed.

Lemma ancestors_from_last (rest pre : string) :
  pre +:+ rest ≠ "" → (pre +:+ rest) ∈ Fs.ancestors_from pre rest.
Proof.
  revert pre. induction rest as [| a rest IH]; intros pre Hne; simpl.
  - rewrite append_empty_r in *.
    destruct pre; [contradiction | constructor].
  - apply elem_of_app. right.
    rewrite <- append_snoc. apply IH.
    rewrite append_snoc. destruct pre; discriminate.
Qed.

(** A directory is the last of its own ancestors. *)
Lemma ancestors_self (d : string) : d ≠ "" → d ∈ Fs.ancestors d.
Proof. intros Hne. apply (ancestors_from_last d ""). exact Hne. Qed.

Lemma writeFileSync_inr (fs fs' : Fs.t) (p : string) (d : Fs.data) :
  Fs.writeFileSync fs p d = inr fs' →
  Fs.dirs fs' = Fs.dirs fs ∧
  Fs.writes fs' = Fs.writes fs ++ [(p, d)] ∧
  stored_at fs' p = Some d ∧
  mode_at fs' p =
    Some (match Fs.files fs !! p with
          | Some f => Fs.mode f
          | None => Fs.default_mode fs
          end).
Proof.
  unfold Fs.writeFileSync, stored_at, mode_at.
  destruct (Fs.files fs !! p) as [f |] eqn:Hf.
  - intros [= <-]. simpl. rewrite lookup_insert_eq. auto.
  - destruct (Fs.is_dir fs p); [discriminate |].
    destruct (Fs.dir_ok fs (Fs.dirname p));
      [| destruct (Fs.is_file fs (Fs.dirname p)); discriminate].
    intros [= <-]. simpl. rewrite lookup_insert_eq. auto.
Qed.

Lemma writeFileSync_inl (fs : Fs.t) (p msg : string) (d : Fs.data) :
  Fs.writeFileSync fs p d = inl msg → Fs.files fs !! p = None.
Proof.
  unfold Fs.writeFileSync. destruct (Fs.files fs !! p); [discriminate | reflexivity].
Qed.

Lemma mkdirSync_recursive_inr (fs fs' : Fs.t) (d : string) :
  Fs.mkdirSync_recursive fs d = inr fs' →
  Fs.files fs' = Fs.files fs ∧
  Fs.writes fs' = Fs.writes fs ∧
  Fs.umask fs' = Fs.umask fs ∧
  ∀ a, a ∈ Fs.ancestors d → Fs.is_dir fs' a = true.
Proof.
  unfold Fs.mkdirSync_recursive.
  destruct (Fs.is_file fs d); [discriminate |].
  destruct (existsb (Fs.is_file fs) (Fs.ancestors d)); [discriminate |].
  intros [= <-]. simpl. repeat split; try reflexivity.
  intros a Ha. unfold Fs.is_dir. simpl. apply bool_decide_eq_true.
  apply elem_of_union. right. apply elem_of_list_to_set. exact Ha.
Qed.

(** What a save that throws nothing leaves behind. *)
Lemma saveTokens_ok (fs fs' : Fs.t) (path : string) (tokens : Credentials) :
  saveTokens fs path tokens = (None, fs') →
  stored_at fs' path = Some (Fs.Json tokens) ∧
  Fs.writes fs' = Fs.writes fs ++ [(path, Fs.Json tokens)] ∧
  mode_at fs' path =
    Some (match Fs.files fs !! path with
          | Some f => Fs.mode f
          | None => Fs.default_mode fs
          end) ∧
  (Fs.dirname path ≠ "" → Fs.existsSync fs (Fs.dirname path) = false →
     ∀ a, a ∈ Fs.ancestors (Fs.dirname path) → Fs.is_dir fs' a = true).
Proof.
  unfold saveTokens. fold (Fs.dirname path).
  destruct (negb (String.eqb (Fs.dirname path) "") &&
            negb (Fs.existsSync fs (Fs.dirname path))) eqn:Hmk.
  - destruct (Fs.mkdirSync_recursive fs (Fs.dirname path)) as [msg | fs1] eqn:Hdir;
      [discriminate |].
    destruct (Fs.writeFileSync fs1 path (Fs.Json tokens)) as [msg | fs2] eqn:Hwr;
      [discriminate |].
    intros [= <-].
    destruct (mkdirSync_recursive_inr _ _ _ Hdir) as (Hfiles & Hwrites & Humask & Hanc).
    destruct (writeFileSync_inr _ _ _ _ Hwr) as (Hdirs & Hw & Hst & Hmode).
    repeat split.
    + exact Hst.
    + rewrite Hw, Hwrites. reflexivity.
    + rewrite Hmode, Hfiles. unfold Fs.default_mode. rewrite Humask. reflexivity.
    + intros _ _ a Ha. unfold Fs.is_dir. rewrite Hdirs. apply (Hanc a Ha).
  - destruct (Fs.writeFileSync fs path (Fs.Json tokens)) as [msg | fs2] eqn:Hwr;
      [discriminate |].
    intros [= <-].
    destruct (writeFileSync_inr _ _ _ _ Hwr) as (Hdirs & Hw & Hst & Hmode).
    repeat split; try assumption.
    intros Hne Hmissing. exfalso.
    apply andb_false_iff in Hmk as [Hmk | Hmk].
    + apply negb_false_iff, String.eqb_eq in Hmk. contradiction.
    + rewrite Hmissing in Hmk. discriminate.
Qed.

(** A save that throws has written nothing. *)
Lemma saveTokens_thrown (fs fs' : Fs.t) (path msg : string) (tokens : Credentials) :
  saveTokens fs path tokens = (Some msg, fs') →
  Fs.files fs' = Fs.files fs ∧ Fs.writes fs' = Fs.writes fs.
Proof.
  unfold saveTokens. fold (Fs.dirname path).
  destruct (negb (String.eqb (Fs.dirname path) "") &&
            negb (Fs.existsSync fs (Fs.dirname path))).
  - destruct (Fs.mkdirSync_recursive fs (Fs.dirname path)) as [m | fs1] eqn:Hdir.
    + intros [= _ <-]. split; reflexivity.
    + destruct (Fs.writeFileSync fs1 path (Fs.Json tokens)); [| discriminate].
      intros [= _ <-].
      destruct (mkdirSync_recursive_inr _ _ _ Hdir) as (Hfiles & Hwrites & _).
      split; assumption.
  - destruct (Fs.writeFileSync fs path (Fs.Json tokens)); [| discriminate].
    intros [= _ <-]. split; reflexivity.
Qed.

(** ** Refresh gate *)

Lemma loaded_from_credentials (w : World) (path : string) (c : Credentials) :
  loaded_from w path c → credentials w = Some c.
Proof.
  intros [Hw (f & Hf & Hc)]. rewrite Hw. unfold loadCredentials.
  rewrite Hf, Hc. reflexivity.
Qed.

Lemma spec_needs_refresh_sound (now : Z) (c : Credentials) :
  spec_needs_refresh now c → needsRefresh now (expiry_date c) = true.
Proof.
  unfold spec_needs_refresh, expiryTimestamp, needsRefresh.
  destruct (expiry_date c) as [| | z]; simpl; intros [H | (e & H & Hle)];
    try reflexivity; try discriminate.
  injection H as <-. apply orb_true_iff. right.
  apply Z.leb_le. unfold expiryBuffer. lia.
Qed.

Lemma needsRefresh_complete (now : Z) (c : Credentials) :
  (0 <= now)%Z →
  needsRefresh now (expiry_date c) = true → spec_needs_refresh now c.
Proof.
  unfold spec_needs_refresh, expiryTimestamp, needsRefresh.
  intros Hnow. destruct (expiry_date c) as [| | z]; simpl; intros H.
  - left. reflexivity.
  - left. reflexivity.
  - right. exists z. split; [reflexivity |].
    apply orb_true_iff in H as [H | H].
    + apply negb_true_iff, negb_false_iff, Z.eqb_eq in H. lia.
    + apply Z.leb_le in H. unfold expiryBuffer in H. lia.
Qed.

(** C3: for a record loaded from the credential file that has an access
    token, the gate judges "needs refresh" exactly when the expiry instant is
    absent or now is no earlier than five minutes before it; when refresh is
    not needed the call returns [false] and leaves client and disk as they
    were; when it is needed, a refresh token is there and the exchange hands
    back a refreshed record, the call returns [true] after exactly one write,
    of that record. (When the provider rejects the exchange instead, the call
    throws and writes nothing.) *)
Theorem refreshIfNeeded_policy (now : Z) (reply : string + Credentials)
    (w : World) (path : string) (c : Credentials) :
  loaded_from w path c →
  Js.truthy (access_token c) = true →
  (0 <= now)%Z →
  (needsRefresh now (expiry_date c) = true ↔ spec_needs_refresh now c)
  ∧ (¬ spec_needs_refresh now c →
       refreshIfNeeded now reply w path = (inr false, w))
  ∧ (spec_needs_refresh now c →
     Js.truthy (refresh_token c) = true →
     ∀ refreshed, reply = inr refreshed →
       ∃ fs',
         refreshIfNeeded now reply w path = (inr true, mkWorld (Some refreshed) fs') ∧
         Fs.writes fs' = Fs.writes (disk w) ++ [(path, Fs.Json refreshed)] ∧
         Fs.content <$> (Fs.files fs' !! path) = Some (Fs.Json refreshed))
  ∧ (spec_needs_refresh now c →
     Js.truthy (refresh_token c) = true →
     ∀ msg, reply = inl msg →
       refreshIfNeeded now reply w path = (inl (refreshFailed msg), w)).
Proof.
  intros Hload Hat Hnow.
  pose proof (loaded_from_credentials w path c Hload) as Hcred.
  split; [| split; [| split]].
  - split; [apply needsRefresh_complete, Hnow | apply spec_needs_refresh_sound].
  - intros Hfresh. unfold refreshIfNeeded. rewrite Hcred, Hat. simpl.
    destruct (needsRefresh now (expiry_date c)) eqn:Hneed; [| reflexivity].
    exfalso. apply Hfresh, needsRefresh_complete; assumption.
  - intros Hneed Hrt refreshed ->.
    destruct Hload as [_ (f & Hf & _)].
    unfold refreshIfNeeded. rewrite Hcred, Hat. simpl.
    rewrite (spec_needs_refresh_sound now c Hneed), Hrt. simpl.
    unfold Fs.writeFileSync. rewrite Hf.
    eexists. split; [reflexivity |]. simpl. split; [reflexivity |].
    rewrite lookup_insert_eq. reflexivity.
  - intros Hneed Hrt msg ->.
    unfold refreshIfNeeded. rewrite Hcred, Hat. simpl.
    rewrite (spec_needs_refresh_sound now c Hneed), Hrt. reflexivity.
Qed.

Lemma refreshIfNeeded_policy_witness :
  ∃ fs', refreshIfNeeded 900000 (inr Scenario.issued) Scenario.w0 Scenario.path
         = (inr true, mkWorld (Some Scenario.issued) fs').
Proof.
  assert (Hload : loaded_from Scenario.w0 Scenario.path Scenario.stored).
  { split; [vm_compute; reflexivity |].
    eexists. split; vm_compute; reflexivity. }
  assert (Hat : Js.truthy (access_token Scenario.stored) = true) by reflexivity.
  assert (Hnow : (0 <= 900000)%Z) by lia.
  destruct (refreshIfNeeded_policy 900000 (inr Scenario.issued) Scenario.w0
              Scenario.path Scenario.stored Hload Hat Hnow) as (_ & _ & Hdo & _).
  destruct (Hdo) with (refreshed := Scenario.issued) as (fs' & Hres & _).
  - right. exists 1000000%Z. split; [reflexivity | lia].
  - reflexivity.
  - reflexivity.
  - exists fs'. exact Hres.
Defined.

(** C8: the gate fails with the no-credentials error when the record has no
    access token (none at all, or an empty one), and with the
    refresh-token-missing error when a record with an access token needs
    refresh and has no refresh token; both times the client and the disk,
    its journal of writes included, are returned as they were. *)
Theorem refreshIfNeeded_errors (now : Z) (reply : string + Credentials)
    (w : World) (path : string) (c : Credentials) :
  credentials w = Some c →
  (Js.truthy (access_token c) = false →
     refreshIfNeeded now reply w path = (inl ERR_NO_CREDENTIALS, w))
  ∧ (Js.truthy (access_token c) = true →
     spec_needs_refresh now c →
     Js.truthy (refresh_token c) = false →
     refreshIfNeeded now reply w path = (inl ERR_NO_REFRESH_TOKEN, w)).
Proof.
  intros Hcred. split.
  - intros Hat. unfold refreshIfNeeded. rewrite Hcred, Hat. reflexivity.
  - intros Hat Hneed Hrt. unfold refreshIfNeeded. rewrite Hcred, Hat. simpl.
    rewrite (spec_needs_refresh_sound now c Hneed), Hrt. reflexivity.
Qed.

Lemma refreshIfNeeded_errors_witness :
  refreshIfNeeded 900000 (inr Scenario.stored)
    (mkWorld (Some noCredentials) Scenario.disk0) Scenario.path
  = (inl ERR_NO_CREDENTIALS, mkWorld (Some noCredentials) Scenario.disk0)
  ∧
  refreshIfNeeded 4900000 (inr Scenario.stored)
    (mkWorld (Some Scenario.issued) Scenario.disk0) Scenario.path
  = (inl ERR_NO_REFRESH_TOKEN, mkWorld (Some Scenario.issued) Scenario.disk0).
Proof.
  split.
  - apply (refreshIfNeeded_errors 900000 (inr Scenario.stored)
             (mkWorld (Some noCredentials) Scenario.disk0) Scenario.path
             noCredentials); reflexivity.
  - apply (refreshIfNeeded_errors 4900000 (inr Scenario.stored)
             (mkWorld (Some Scenario.issued) Scenario.disk0) Scenario.path
             Scenario.issued); try reflexivity.
    right. exists 5000000%Z. split; [reflexivity | lia].
Defined.

(** A client whose credentials are [null] gets the same error. *)
Lemma refreshIfNeeded_null_credentials (now : Z) (reply : string + Credentials)
    (w : World) (path : string) :
  credentials w = None →
  refreshIfNeeded now reply w path = (inl ERR_NO_CREDENTIALS, w).
Proof. intros H. unfold refreshIfNeeded. rewrite H. reflexivity. Qed.

(** C10: for a record whose [expiry_date] is there but falsy ([0], [null]),
    [refreshIfNeeded] takes the refresh branch at every instant, exactly as
    it does for the same record with the field removed: the test of line 214
    holds, the call never returns [false], with an access token it throws for
    want of a refresh token or else asks the provider, throwing on its
    rejection and writing and returning [true] on its answer, and result and
    disk are those of the call on the record without [expiry_date]. *)
Theorem falsy_expiry_needs_refresh (now : Z) (reply : string + Credentials)
    (w : World) (path : string) (c : Credentials) :
  credentials w = Some c →
  Js.truthy_num (expiry_date c) = false →
  needsRefresh now (expiry_date c) = true ∧
  needsRefresh now (expiry_date c) = needsRefresh now Js.Undefined ∧
  (∀ w', refreshIfNeeded now reply w path ≠ (inr false, w')) ∧
  (Js.truthy (access_token c) = true →
     (Js.truthy (refresh_token c) = false →
        refreshIfNeeded now reply w path = (inl ERR_NO_REFRESH_TOKEN, w)) ∧
     (Js.truthy (refresh_token c) = true →
        ∀ msg, reply = inl msg →
          refreshIfNeeded now reply w path = (inl (refreshFailed msg), w)) ∧
     (Js.truthy (refresh_token c) = true →
        ∀ refreshed fs',
          reply = inr refreshed →
          Fs.writeFileSync (disk w) path (Fs.Json refreshed) = inr fs' →
          refreshIfNeeded now reply w path
            = (inr true, mkWorld (Some refreshed) fs'))) ∧
  fst (refreshIfNeeded now reply w path)
    = fst (refreshIfNeeded now reply
             (mkWorld (Some (without_expiry c)) (disk w)) path) ∧
  disk (snd (refreshIfNeeded now reply w path))
    = disk (snd (refreshIfNeeded now reply
                   (mkWorld (Some (without_expiry c)) (disk w)) path)).
Proof.
  intros Hc Hfalsy.
  assert (Hneed : needsRefresh now (expiry_date c) = true).
  { unfold needsRefresh. rewrite Hfalsy. reflexivity. }
  split; [exact Hneed |]. split; [rewrite Hneed; reflexivity |].
  split; [| split; [| split]].
  - intros w'. unfold refreshIfNeeded. rewrite Hc, Hneed.
    destruct (negb (Js.truthy (access_token c))); [discriminate |].
    destruct (negb (Js.truthy (refresh_token c))); [discriminate |].
    destruct reply as [msg | refreshed]; [discriminate |]. simpl.
    destruct (Fs.writeFileSync (disk w) path (Fs.Json refreshed)); discriminate.
  - intros Hat. unfold refreshIfNeeded. rewrite Hc, Hat, Hneed. cbn [negb].
    split; [| split].
    + intros Hrt. rewrite Hrt. reflexivity.
    + intros Hrt msg ->. rewrite Hrt. reflexivity.
    + intros Hrt refreshed fs' -> Hwr. rewrite Hrt. simpl. rewrite Hwr. reflexivity.
  - unfold refreshIfNeeded, without_expiry. rewrite Hc, Hneed. simpl.
    destruct (negb (Js.truthy (access_token c))); [reflexivity |].
    destruct (negb (Js.truthy (refresh_token c))); [reflexivity |].
    destruct reply as [msg | refreshed]; [reflexivity |].
    destruct (Fs.writeFileSync (disk w) path (Fs.Json refreshed)); reflexivity.
  - unfold refreshIfNeeded, without_expiry. rewrite Hc, Hneed. simpl.
    destruct (negb (Js.truthy (access_token c))); [reflexivity |].
    destruct (negb (Js.truthy (refresh_token c))); [reflexivity |].
    destruct reply as [msg | refreshed]; [reflexivity |].
    destruct (Fs.writeFileSync (disk w) path (Fs.Json refreshed)); reflexivity.
Qed.

Lemma falsy_expiry_needs_refresh_witness :
  needsRefresh 42 (Js.Number 0) = true ∧
  ∃ fs',
    refreshIfNeeded 42 (inr Scenario.issued) Scenario3.wzero Scenario.path
    = (inr true, mkWorld (Some Scenario.issued) fs').
Proof.
  destruct (falsy_expiry_needs_refresh 42 (inr Scenario.issued) Scenario3.wzero
              Scenario.path Scenario3.zero_expiry) as (Hneed & _ & _ & Hbranch & _).
  - reflexivity.
  - reflexivity.
  - split; [exact Hneed |].
    destruct Hbranch as (_ & _ & Hgo); [reflexivity |].
    exists (match Fs.writeFileSync Scenario.disk0 Scenario.path (Fs.Json Scenario.issued) with
            | inr fs' => fs'
            | inl _ => Scenario.disk0
            end).
    apply Hgo.
    + reflexivity.
    + reflexivity.
    + vm_compute. reflexivity.
Defined.

(** The whole call agrees as well: with expiry [0] the gate does what it does
    with the field removed. *)
Lemma refreshIfNeeded_expiry_zero (now : Z) (reply : string + Credentials)
    (fs : Fs.t) (path : string) (a r s t : option string) :
  fst (refreshIfNeeded now reply
         (mkWorld (Some (mkCredentials a r (Js.Number 0) s t)) fs) path)
  = fst (refreshIfNeeded now reply
         (mkWorld (Some (mkCredentials a r Js.Undefined s t)) fs) path).
Proof.
  unfold refreshIfNeeded. simpl.
  destruct (Js.truthy a); simpl; [| reflexivity].
  destruct (Js.truthy r); simpl; [| reflexivity].
  destruct reply as [msg | newc]; [reflexivity |].
  destruct (Fs.writeFileSync fs path (Fs.Json newc)); reflexivity.
Qed.

(** ** Interactive session *)

Lemma snoc_neq_self {A : Type} (l : list A) (x : A) : l ++ [x] ≠ l.
Proof.
  intros H. apply (f_equal (@length A)) in H.
  rewrite length_app in H. simpl in H. lia.
Qed.

Lemma cleanup_resolved (st : Session) (error : option string) :
  isResolved st = true → cleanup st error = st.
Proof. intros H. unfold cleanup. rewrite H. reflexivity. Qed.

Lemma cleanup_pending (st : Session) (error : option string) :
  isResolved st = false →
  cleanup st error =
    mkSession true false false
      (settled st ++ [match error with Some e => Rejected e | None => Fulfilled end])
      (inflight st) (exchanged st) (responses st) (world st).
Proof. intros H. unfold cleanup. rewrite H. reflexivity. Qed.

(** The tests of the request handler, case by case. *)
Ltac handler_cases :=
  repeat match goal with
    | |- context [match ?url with Some _ => _ | None => _ end] =>
        let E := fresh "Eq" in destruct url eqn:E
    | |- context [if negb ?b then _ else _] =>
        let E := fresh "Eq" in destruct b eqn:E; cbn [negb]
    | |- context [if Js.truthy ?v then _ else _] =>
        let E := fresh "Eq" in destruct (Js.truthy v) eqn:E
    end.

(** Once resolved, a session keeps its outcome, timer and listener through
    every event, and its client and disk through every event but a token
    exchange that succeeds. *)
Lemma step_resolved (path : string) (st : Session) (ev : event) :
  isResolved st = true →
  isResolved (step path st ev) = true ∧
  settled (step path st ev) = settled st ∧
  timerArmed (step path st ev) = timerArmed st ∧
  listening (step path st ev) = listening st ∧
  (is_grant_reply ev = false → world (step path st ev) = world st).
Proof.
  intros Hres. destruct ev as [url | code reply | | msg]; simpl.
  - unfold on_request, on_code. handler_cases;
      repeat rewrite cleanup_resolved by (simpl; assumption);
      simpl; auto.
  - unfold on_token_reply. destruct (existsb (String.eqb code) (inflight st)); simpl;
      [| auto].
    destruct reply as [m | tokens].
    + unfold exchangeFailed. rewrite cleanup_resolved by (simpl; assumption).
      simpl. auto.
    + destruct (saveTokens _ path tokens) as [[m |] fs'];
        unfold exchangeFailed; rewrite cleanup_resolved by (simpl; assumption);
        simpl; repeat split; try assumption; discriminate.
  - rewrite cleanup_resolved by assumption. auto.
  - rewrite cleanup_resolved by assumption. auto.
Qed.

(** The timer callback and the ['error'] handler do nothing at all to a
    resolved session. *)
Lemma late_timer_is_noop (path : string) (st : Session) (msg : string) :
  isResolved st = true →
  step path st TimerFired = st ∧ step path st (ServerError msg) = st.
Proof. intros H. simpl. split; apply cleanup_resolved, H. Qed.

Lemma step_settled_once (path : string) (st : Session) (ev : event) :
  settled_once st → settled_once (step path st ev).
Proof.
  unfold settled_once. intros [Hlen Hrel].
  destruct (isResolved st) eqn:Hres.
  - destruct (step_resolved path st ev Hres) as (Hr & Hs & Ht & Hl & _).
    rewrite Hr, Hs, Ht, Hl. split; [exact Hlen | intros _; apply Hrel; reflexivity].
  - assert (Hnil : settled st = []) by (destruct (settled st); [reflexivity | discriminate]).
    destruct ev as [url | code reply | | msg]; simpl.
    + unfold on_request, on_code. handler_cases;
        repeat rewrite cleanup_pending by (simpl; assumption);
        simpl; rewrite ?Hres, ?Hnil; (split; [reflexivity | auto; discriminate]).
    + unfold on_token_reply.
      destruct (existsb (String.eqb code) (inflight st)); simpl;
        [| rewrite Hres, Hnil; split; [reflexivity | discriminate]].
      destruct reply as [m | tokens].
      * unfold exchangeFailed. rewrite cleanup_pending by (simpl; assumption).
        simpl. rewrite Hnil. auto.
      * destruct (saveTokens _ path tokens) as [[m |] fs'];
          unfold exchangeFailed; rewrite cleanup_pending by (simpl; assumption);
          simpl; rewrite Hnil; auto.
    + rewrite cleanup_pending by assumption. simpl. rewrite Hnil. auto.
    + rewrite cleanup_pending by assumption. simpl. rewrite Hnil. auto.
Qed.

Lemma run_settled_once (path : string) (evs : list event) (st : Session) :
  settled_once st → settled_once (run path st evs).
Proof.
  revert st. induction evs as [| ev evs IH]; intros st Hinv; simpl.
  - exact Hinv.
  - apply IH, step_settled_once, Hinv.
Qed.

Lemma run_resolved (path : string) (evs : list event) (st : Session) :
  isResolved st = true →
  isResolved (run path st evs) = true ∧
  settled (run path st evs) = settled st ∧
  timerArmed (run path st evs) = timerArmed st ∧
  listening (run path st evs) = listening st ∧
  (forallb (λ ev, negb (is_grant_reply ev)) evs = true →
     world (run path st evs) = world st).
Proof.
  revert st. induction evs as [| ev evs IH]; intros st Hres; simpl.
  - auto.
  - destruct (step_resolved path st ev Hres) as (Hr & Hs & Ht & Hl & Hw).
    destruct (IH (step path st ev) Hr) as (Hr' & Hs' & Ht' & Hl' & Hw').
    unfold run in *. rewrite Hs', Ht', Hl'. repeat split; try assumption.
    intros Hall. apply andb_true_iff in Hall as [Hev Hall].
    rewrite (Hw' Hall). apply Hw. apply negb_true_iff. exact Hev.
Qed.

(** The handlers with explicit exceptions end in the state that [step]
    computes, and nothing is thrown out of them: what the exchange, [mkdirSync]
    or [writeFileSync] throw is caught by the [try]/[catch] of the handler. *)
Lemma deliver_is_step (path : string) (ev : event) (st : Session) :
  Exn.deliver path ev st = (inr tt, step path st ev).
Proof.
  destruct ev as [url | code reply | | msg]; try reflexivity.
  unfold Exn.deliver, step, on_token_reply.
  destruct (existsb (String.eqb code) (inflight st)); cbn [negb]; [| reflexivity].
  generalize (set_inflight st (remove_first code (inflight st))). intros st0.
  destruct reply as [m | tokens]; [reflexivity |].
  destruct st0 as [r t l s i x rs [cr fs]].
  unfold saveTokens, Exn.after_getToken, Exn.try_catch, Exn.bind, Exn.awaitToken,
    Exn.ret, Exn.modify, Exn.existsSync, Exn.gets, Exn.mkdirSync, Exn.writeFileSync,
    Exn.on_disk.
  generalize (Js.substring path 0 (Js.lastIndexOf "/" path)). intros dir.
  cbv beta iota zeta delta [disk world set_world setCredentials credentials].
  destruct (String.eqb dir ""); cbn [negb andb].
  - destruct (Fs.writeFileSync fs path (Fs.Json tokens)); reflexivity.
  - destruct (Fs.existsSync fs dir); cbn [negb].
    + destruct (Fs.writeFileSync fs path (Fs.Json tokens)); reflexivity.
    + destruct (Fs.mkdirSync_recursive fs dir) as [m | fs1]; [reflexivity |].
      cbv beta iota zeta delta [disk world set_world setCredentials credentials].
      destruct (Fs.writeFileSync fs1 path (Fs.Json tokens)); reflexivity.
Qed.

(** What a resolved session answers to late events. *)
Lemma late_stray (path : string) (st : Session) (url : option string) :
  stray url = true → step path st (Request url) = respond st 404 "Not found".
Proof.
  unfold stray. intros H. simpl. unfold on_request.
  destruct url as [u |]; [| reflexivity]. rewrite H. reflexivity.
Qed.

Lemma late_denied (path : string) (st : Session) (u e : string) :
  isResolved st = true →
  Js.startsWith u "/oauth2callback" = true →
  Url.get u "error" = Some e →
  e ≠ "" →
  step path st (Request (Some u))
    = respond st 400 ("Authentication was cancelled or failed: " +:+ e).
Proof.
  intros Hres Hpre Herr Hne. unfold step, on_request.
  rewrite Hpre, Herr. cbn [negb Js.truthy].
  apply String.eqb_neq in Hne. rewrite Hne. cbn [negb].
  apply cleanup_resolved. exact Hres.
Qed.

Lemma late_malformed (path : string) (st : Session) (u : string) :
  isResolved st = true →
  Js.startsWith u "/oauth2callback" = true →
  Js.truthy (Url.get u "error") = false →
  Js.truthy (Url.get u "code") = false →
  step path st (Request (Some u)) = respond st 400 "No authorization code provided".
Proof.
  intros Hres Hpre Herr Hcode. unfold step, on_request, on_code.
  rewrite Hpre. cbn [negb].
  destruct (Url.get u "error") as [e |]; rewrite ?Herr;
    destruct (Url.get u "code") as [c |]; rewrite ?Hcode;
    apply cleanup_resolved; exact Hres.
Qed.

Lemma late_rejected_exchange (path : string) (st : Session) (code msg : string) :
  isResolved st = true →
  existsb (String.eqb code) (inflight st) = true →
  step path st (TokenReply code (inl msg))
    = respond (set_inflight st (remove_first code (inflight st))) 500
        ("Authentication failed: " +:+ msg).
Proof.
  intros Hres Hin. unfold step, on_token_reply. rewrite Hin. cbn [negb].
  unfold exchangeFailed. apply cleanup_resolved. exact Hres.
Qed.

(** ** The persisted record *)

Lemma on_request_settled (st : Session) (url : option string) :
  settled (on_request st url) = settled st ∨
  ∃ m, settled (on_request st url) = settled st ++ [Rejected m].
Proof.
  unfold on_request, on_code.
  destruct (isResolved st) eqn:Hres; handler_cases;
    repeat rewrite cleanup_resolved by (simpl; assumption);
    repeat rewrite cleanup_pending by (simpl; assumption);
    simpl; eauto.
Qed.

Lemma refreshIfNeeded_true (now : Z) (reply : string + Credentials)
    (w w' : World) (path : string) :
  refreshIfNeeded now reply w path = (inr true, w') →
  ∃ refreshed fs',
    reply = inr refreshed ∧
    w' = mkWorld (Some refreshed) fs' ∧
    Fs.writeFileSync (disk w) path (Fs.Json refreshed) = inr fs'.
Proof.
  unfold refreshIfNeeded.
  destruct (credentials w) as [c |]; [| discriminate].
  destruct (negb (Js.truthy (access_token c))); [discriminate |].
  destruct (needsRefresh now (expiry_date c)); [| discriminate].
  destruct (negb (Js.truthy (refresh_token c))); [discriminate |].
  destruct reply as [msg | refreshed]; [discriminate |]. simpl.
  destruct (Fs.writeFileSync (disk w) path (Fs.Json refreshed)) as [msg | fs'] eqn:Hwr;
    [discriminate |].
  intros [= <-]. exists refreshed, fs'. auto.
Qed.

(** C1 (as amended): when the promise of [authenticate] is fulfilled, and when
    [refreshIfNeeded] returns [true], the credential file holds exactly the
    record that the exchange call returned, written by one write; nothing of
    the record stored before is merged into it. *)
Theorem persisted_record_is_exchange_result :
  (∀ (path : string) (st : Session) (ev : event),
     settled (step path st ev) = settled st ++ [Fulfilled] →
     ∃ code tokens,
       ev = TokenReply code (inr tokens) ∧
       stored_at (disk (world (step path st ev))) path = Some (Fs.Json tokens) ∧
       Fs.writes (disk (world (step path st ev)))
         = Fs.writes (disk (world st)) ++ [(path, Fs.Json tokens)])
  ∧
  (∀ (now : Z) (reply : string + Credentials) (w w' : World) (path : string),
     refreshIfNeeded now reply w path = (inr true, w') →
     ∃ refreshed,
       reply = inr refreshed ∧
       stored_at (disk w') path = Some (Fs.Json refreshed) ∧
       Fs.writes (disk w') = Fs.writes (disk w) ++ [(path, Fs.Json refreshed)]).
Proof.
  split.
  - intros path st ev Hful.
    destruct ev as [url | code reply | | msg]; simpl in Hful.
    + exfalso. destruct (on_request_settled st url) as [H | [m H]];
        rewrite H in Hful.
      * symmetry in Hful. exact (snoc_neq_self _ _ Hful).
      * apply app_inv_head in Hful. discriminate.
    + simpl. revert Hful. unfold on_token_reply.
      destruct (existsb (String.eqb code) (inflight st)); simpl.
      2:{ intros H. symmetry in H. destruct (snoc_neq_self _ _ H). }
      destruct reply as [m | tokens].
      * unfold exchangeFailed. intros Hful. exfalso.
        destruct (isResolved st) eqn:Hres.
        -- rewrite cleanup_resolved in Hful by (simpl; assumption). simpl in Hful.
           symmetry in Hful. exact (snoc_neq_self _ _ Hful).
        -- rewrite cleanup_pending in Hful by (simpl; assumption). simpl in Hful.
           apply app_inv_head in Hful. discriminate.
      * destruct (saveTokens _ path tokens) as [[m |] fs'] eqn:Hsave.
        -- unfold exchangeFailed. intros Hful. exfalso.
           destruct (isResolved st) eqn:Hres.
           ++ rewrite cleanup_resolved in Hful by (simpl; assumption). simpl in Hful.
              symmetry in Hful. exact (snoc_neq_self _ _ Hful).
           ++ rewrite cleanup_pending in Hful by (simpl; assumption). simpl in Hful.
              apply app_inv_head in Hful. discriminate.
        -- intros Hful. exists code, tokens.
           destruct (saveTokens_ok _ _ _ _ Hsave) as (Hst & Hw & _).
           destruct (isResolved st) eqn:Hres.
           ++ exfalso. rewrite cleanup_resolved in Hful by (simpl; assumption).
              simpl in Hful. symmetry in Hful. exact (snoc_neq_self _ _ Hful).
           ++ rewrite cleanup_pending by (simpl; assumption). simpl.
              simpl in Hw. auto.
    + exfalso. destruct (isResolved st) eqn:Hres.
      * rewrite cleanup_resolved in Hful by assumption.
        symmetry in Hful. exact (snoc_neq_self _ _ Hful).
      * rewrite cleanup_pending in Hful by assumption. simpl in Hful.
        apply app_inv_head in Hful. discriminate.
    + exfalso. destruct (isResolved st) eqn:Hres.
      * rewrite cleanup_resolved in Hful by assumption.
        symmetry in Hful. exact (snoc_neq_self _ _ Hful).
      * rewrite cleanup_pending in Hful by assumption. simpl in Hful.
        apply app_inv_head in Hful. discriminate.
  - intros now reply w w' path Hres.
    destruct (refreshIfNeeded_true _ _ _ _ _ Hres) as (refreshed & fs' & -> & -> & Hwr).
    exists refreshed. simpl.
    destruct (writeFileSync_inr _ _ _ _ Hwr) as (_ & Hw & Hst & _). auto.
Qed.

Lemma persisted_record_is_exchange_result_witness :
  (∃ code tokens,
     TokenReply "abc" (inr Scenario.issued) = TokenReply code (inr tokens) ∧
     stored_at
       (disk (world (step Scenario.path
                       (step Scenario.path (awaiting Scenario.w0)
                             (Request (Some "/oauth2callback?code=abc")))
                       (TokenReply "abc" (inr Scenario.issued)))))
       Scenario.path = Some (Fs.Json tokens))
  ∧
  (∃ refreshed,
     stored_at (disk (snd (refreshIfNeeded 900000 (inr Scenario.issued)
                             Scenario.w0 Scenario.path)))
       Scenario.path = Some (Fs.Json refreshed)).
Proof.
  destruct persisted_record_is_exchange_result as [Hgrant Hrefresh].
  split.
  - destruct (Hgrant Scenario.path
                (step Scenario.path (awaiting Scenario.w0)
                      (Request (Some "/oauth2callback?code=abc")))
                (TokenReply "abc" (inr Scenario.issued)))
      as (code & tokens & Hev & Hst & _).
    + vm_compute. reflexivity.
    + exists code, tokens. split; assumption.
  - destruct (Hrefresh 900000%Z (inr Scenario.issued) Scenario.w0
                (snd (refreshIfNeeded 900000 (inr Scenario.issued)
                        Scenario.w0 Scenario.path))
                Scenario.path)
      as (refreshed & _ & Hst & _).
    + vm_compute. reflexivity.
    + exists refreshed. exact Hst.
Defined.

(** Against C1 as stated: the stored record has the refresh token [R0], the
    exchange response has none; the grant succeeds and the file then holds the
    response as it is, not the response completed with [R0]. *)
Lemma grant_drops_stored_refresh_token :
  let st := run Scenario.path (awaiting Scenario.w0)
              [Request (Some "/oauth2callback?code=abc");
               TokenReply "abc" (inr Scenario.issued)] in
  stored_at Scenario.disk0 Scenario.path = Some (Fs.Json Scenario.stored) ∧
  refresh_token Scenario.stored = Some "R0" ∧
  refresh_token Scenario.issued = None ∧
  settled st = [Fulfilled] ∧
  stored_at (disk (world st)) Scenario.path = Some (Fs.Json Scenario.issued) ∧
  stored_at (disk (world st)) Scenario.path
    ≠ Some (Fs.Json (spec_written_record Scenario.issued Scenario.stored)).
Proof.
  cbv zeta. repeat split; try (vm_compute; reflexivity).
  vm_compute. discriminate.
Qed.

(** ** Terminal outcomes *)




(** The same write happens when the callback came in time and the deadline
    fires while its exchange is under way. *)
Example exchange_outlives_timeout :
  let st := run Scenario.path (awaiting Scenario.w0)
              [Request (Some "/oauth2callback?code=abc");
               TimerFired;
               TokenReply "abc" (inr Scenario.issued)] in
  settled st = [Rejected ERR_TIMEOUT] ∧
  Fs.writes (disk (world st)) = [(Scenario.path, Fs.Json Scenario.issued)].
Proof. cbv zeta. split; vm_compute; reflexivity. Qed.

(** ** Requests *)

(** A request whose URL does not begin with the callback path is answered
    with 404 and changes nothing else. *)
Lemma other_path_not_found (path : string) (st : Session) (url : option string) :
  match url with
  | Some u => Js.startsWith u "/oauth2callback"
  | None => false
  end = false →
  step path st (Request url) = respond st 404 "Not found".
Proof.
  intros H. simpl. unfold on_request. destruct url as [u |]; [| reflexivity].
  rewrite H. reflexivity.
Qed.

Example favicon_not_found :
  step Scenario.path (awaiting Scenario.w0) (Request (Some "/favicon.ico"))
  = respond (awaiting Scenario.w0) 404 "Not found".
Proof. reflexivity. Qed.

(** C4: the handler tests the URL with [startsWith], so a request to another
    path that merely begins with the callback path is not answered with 404:
    it is read as a callback, and here it ends the session as a denial. *)
Lemma longer_path_is_read_as_callback :
  let st := step Scenario.path (awaiting Scenario.w0)
              (Request (Some "/oauth2callback-old/x?error=nope")) in
  map status (responses st) = [400%N] ∧
  isResolved st = true ∧
  settled st = [Rejected "Authentication cancelled: nope"] ∧
  listening st = false.
Proof. cbv zeta. repeat split; vm_compute; reflexivity. Qed.

Lemma on_request_denied (path : string) (st : Session) (u e : string) :
  isResolved st = false →
  Js.startsWith u "/oauth2callback" = true →
  Url.get u "error" = Some e →
  e ≠ "" →
  step path st (Request (Some u)) =
    mkSession true false false
      (settled st ++ [Rejected ("Authentication cancelled: " +:+ e)])
      (inflight st) (exchanged st)
      (responses st ++ [mkResponse 400 ("Authentication was cancelled or failed: " +:+ e)])
      (world st).
Proof.
  intros Hres Hpre Herr Hne. simpl. unfold on_request.
  rewrite Hpre, Herr. simpl.
  apply String.eqb_neq in Hne. rewrite Hne. simpl.
  rewrite cleanup_pending by (simpl; assumption). reflexivity.
Qed.

Lemma on_request_malformed (path : string) (st : Session) (u : string) :
  isResolved st = false →
  Js.startsWith u "/oauth2callback" = true →
  Js.truthy (Url.get u "error") = false →
  Js.truthy (Url.get u "code") = false →
  step path st (Request (Some u)) =
    mkSession true false false
      (settled st ++ [Rejected "No authorization code provided in callback"])
      (inflight st) (exchanged st)
      (responses st ++ [mkResponse 400 "No authorization code provided"])
      (world st).
Proof.
  intros Hres Hpre Herr Hcode. unfold step, on_request, on_code.
  rewrite Hpre. cbn [negb].
  destruct (Url.get u "error") as [e |]; rewrite ?Herr;
    destruct (Url.get u "code") as [c |]; rewrite ?Hcode;
    rewrite cleanup_pending by (simpl; assumption); reflexivity.
Qed.

(** C5 (as amended): on a pending session, a callback whose [error] parameter
    has a non-empty value makes [authenticate] fail with the cancellation
    error, and a callback without a non-empty [error] and without a non-empty
    [code] makes it fail with the missing-code error; both leave the client
    and the disk, the credential file included, as they were, and hand no
    code to the exchange. *)
Theorem failed_callback_writes_nothing (path : string) (st : Session) (u : string) :
  isResolved st = false →
  Js.startsWith u "/oauth2callback" = true →
  (∀ e, Url.get u "error" = Some e → e ≠ "" →
     settled (step path st (Request (Some u)))
       = settled st ++ [Rejected ("Authentication cancelled: " +:+ e)] ∧
     world (step path st (Request (Some u))) = world st ∧
     exchanged (step path st (Request (Some u))) = exchanged st)
  ∧
  (Js.truthy (Url.get u "error") = false →
   Js.truthy (Url.get u "code") = false →
     settled (step path st (Request (Some u)))
       = settled st ++ [Rejected "No authorization code provided in callback"] ∧
     world (step path st (Request (Some u))) = world st ∧
     exchanged (step path st (Request (Some u))) = exchanged st).
Proof.
  intros Hres Hpre. split.
  - intros e Herr Hne.
    rewrite (on_request_denied path st u e Hres Hpre Herr Hne). auto.
  - intros Herr Hcode.
    rewrite (on_request_malformed path st u Hres Hpre Herr Hcode). auto.
Qed.

Lemma failed_callback_writes_nothing_witness :
  stored_at
    (disk (world (step Scenario.path (awaiting Scenario.w0)
                    (Request (Some "/oauth2callback?error=access_denied")))))
    Scenario.path = Some (Fs.Json Scenario.stored)
  ∧
  settled (step Scenario.path (awaiting Scenario.w0)
             (Request (Some "/oauth2callback?state=xyz")))
  = [Rejected "No authorization code provided in callback"].
Proof.
  split.
  - destruct (failed_callback_writes_nothing Scenario.path (awaiting Scenario.w0)
                "/oauth2callback?error=access_denied") as [Hden _].
    + reflexivity.
    + reflexivity.
    + destruct (Hden "access_denied") as (_ & Hw & _).
      * reflexivity.
      * discriminate.
      * rewrite Hw. vm_compute. reflexivity.
  - destruct (failed_callback_writes_nothing Scenario.path (awaiting Scenario.w0)
                "/oauth2callback?state=xyz") as [_ Hmal].
    + reflexivity.
    + reflexivity.
    + destruct Hmal as (Hs & _).
      * reflexivity.
      * reflexivity.
      * exact Hs.
Defined.

(** Against C5 as stated: this callback carries an [error] parameter, with an
    empty value; the handler takes the empty value for no error, exchanges the
    code, and the grant replaces the credential file. *)
Lemma empty_error_callback_is_granted :
  let u := "/oauth2callback?error=&code=abc" in
  let st := run Scenario.path (awaiting Scenario.w0)
              [Request (Some u); TokenReply "abc" (inr Scenario.issued)] in
  Url.get u "error" = Some "" ∧
  settled st = [Fulfilled] ∧
  stored_at Scenario.disk0 Scenario.path = Some (Fs.Json Scenario.stored) ∧
  stored_at (disk (world st)) Scenario.path = Some (Fs.Json Scenario.issued).
Proof. cbv zeta. repeat split; vm_compute; reflexivity. Qed.

(** C9 (as amended): a callback that carries an [error] parameter with a
    non-empty value together with a [code] parameter resolves a pending
    session as a denial, and the code is not handed to the exchange. *)
Theorem error_precedes_code (path : string) (st : Session) (u e c : string) :
  isResolved st = false →
  Js.startsWith u "/oauth2callback" = true →
  Url.get u "error" = Some e →
  e ≠ "" →
  Url.get u "code" = Some c →
  settled (step path st (Request (Some u)))
    = settled st ++ [Rejected ("Authentication cancelled: " +:+ e)] ∧
  exchanged (step path st (Request (Some u))) = exchanged st ∧
  inflight (step path st (Request (Some u))) = inflight st ∧
  world (step path st (Request (Some u))) = world st.
Proof.
  intros Hres Hpre Herr Hne _.
  rewrite (on_request_denied path st u e Hres Hpre Herr Hne). auto.
Qed.

Lemma error_precedes_code_witness :
  settled (step Scenario.path (awaiting Scenario.w0)
             (Request (Some "/oauth2callback?code=abc&error=access_denied")))
  = [Rejected "Authentication cancelled: access_denied"]
  ∧
  exchanged (step Scenario.path (awaiting Scenario.w0)
               (Request (Some "/oauth2callback?code=abc&error=access_denied")))
  = [].
Proof.
  destruct (error_precedes_code Scenario.path (awaiting Scenario.w0)
              "/oauth2callback?code=abc&error=access_denied" "access_denied" "abc")
    as (Hs & Hx & _).
  - reflexivity.
  - reflexivity.
  - reflexivity.
  - discriminate.
  - reflexivity.
  - split; [exact Hs | exact Hx].
Defined.

(** Against C9 as stated: with an [error] parameter of empty value next to
    the code, the session is not denied; the code goes to the exchange. *)
Lemma empty_error_does_not_precede_code :
  let u := "/oauth2callback?error=&code=abc" in
  let st := step Scenario.path (awaiting Scenario.w0) (Request (Some u)) in
  Url.get u "error" = Some "" ∧
  Url.get u "code" = Some "abc" ∧
  isResolved st = false ∧
  settled st = [] ∧
  exchanged st = ["abc"] ∧
  inflight st = ["abc"].
Proof. cbv zeta. repeat split; vm_compute; reflexivity. Qed.

(** ** Saving the record *)

(** C6 (as amended): the save of the grant path creates the directory of the
    target path, and the directories above it, when that directory is named
    and missing, and then writes the record; the save of the refresh path
    writes to the path as it finds it and creates no directory. Neither sets
    permission bits: a credential file that exists keeps the bits it has. *)
Theorem save_creates_directory_and_keeps_mode :
  (∀ (fs fs' : Fs.t) (path : string) (tokens : Credentials),
     saveTokens fs path tokens = (None, fs') →
     stored_at fs' path = Some (Fs.Json tokens) ∧
     (Fs.dirname path ≠ "" → Fs.existsSync fs (Fs.dirname path) = false →
        Fs.is_dir fs' (Fs.dirname path) = true ∧
        ∀ a, a ∈ Fs.ancestors (Fs.dirname path) → Fs.is_dir fs' a = true) ∧
     (∀ f, Fs.files fs !! path = Some f → mode_at fs' path = Some (Fs.mode f)))
  ∧
  (∀ (now : Z) (reply : string + Credentials) (w w' : World) (path : string),
     refreshIfNeeded now reply w path = (inr true, w') →
     ∃ refreshed,
       reply = inr refreshed ∧
       stored_at (disk w') path = Some (Fs.Json refreshed) ∧
       Fs.dirs (disk w') = Fs.dirs (disk w) ∧
       (∀ f, Fs.files (disk w) !! path = Some f →
          mode_at (disk w') path = Some (Fs.mode f))).
Proof.
  split.
  - intros fs fs' path tokens Hsave.
    destruct (saveTokens_ok _ _ _ _ Hsave) as (Hst & _ & Hmode & Hdirs).
    split; [exact Hst | split].
    + intros Hne Hmissing. split.
      * apply (Hdirs Hne Hmissing), ancestors_self, Hne.
      * apply (Hdirs Hne Hmissing).
    + intros f Hf. rewrite Hmode, Hf. reflexivity.
  - intros now reply w w' path Hres.
    destruct (refreshIfNeeded_true _ _ _ _ _ Hres) as (refreshed & fs' & -> & -> & Hwr).
    destruct (writeFileSync_inr _ _ _ _ Hwr) as (Hdirs & _ & Hst & Hmode).
    exists refreshed. simpl. repeat split; try assumption.
    intros f Hf. rewrite Hmode, Hf. reflexivity.
Qed.

Lemma save_creates_directory_and_keeps_mode_witness :
  Fs.is_dir (snd (saveTokens Scenario.blank Scenario.path Scenario.issued))
    (Fs.dirname Scenario.path) = true
  ∧
  mode_at (disk (snd (refreshIfNeeded 900000 (inr Scenario.issued)
                        Scenario.w0 Scenario.path)))
    Scenario.path = Some 384%N.
Proof.
  destruct save_creates_directory_and_keeps_mode as [Hgrant Hrefresh].
  split.
  - destruct (Hgrant Scenario.blank
                (snd (saveTokens Scenario.blank Scenario.path Scenario.issued))
                Scenario.path Scenario.issued) as (_ & Hdir & _).
    + vm_compute. reflexivity.
    + destruct Hdir as [Hd _].
      * vm_compute. discriminate.
      * vm_compute. reflexivity.
      * exact Hd.
  - destruct (Hrefresh 900000%Z (inr Scenario.issued) Scenario.w0
                (snd (refreshIfNeeded 900000 (inr Scenario.issued)
                        Scenario.w0 Scenario.path))
                Scenario.path) as (refreshed & _ & _ & _ & Hmode).
    + vm_compute. reflexivity.
    + apply (Hmode (Fs.mkFile (Fs.Json Scenario.stored) 384)).
      vm_compute. reflexivity.
Defined.

(** What the save does to a file that it creates: the bits are those of a
    default creation under the umask of the process. *)
Lemma saveTokens_new_file_mode (fs fs' : Fs.t) (path : string) (tokens : Credentials) :
  saveTokens fs path tokens = (None, fs') →
  Fs.files fs !! path = None →
  mode_at fs' path = Some (Fs.default_mode fs).
Proof.
  intros Hsave Hnew.
  destruct (saveTokens_ok _ _ _ _ Hsave) as (_ & _ & Hmode & _).
  rewrite Hmode, Hnew. reflexivity.
Qed.

(** Against C6 as stated: on a disk without the configuration directory and
    with the usual umask [0o022], the save of the grant path creates the
    credential file with the bits [0o644], readable by group and others; and
    the save of the refresh path, finding no directory, creates none and
    fails. *)
Lemma save_does_not_restrict_permissions :
  let saved := saveTokens Scenario.blank Scenario.path Scenario.issued in
  let refreshed :=
    refreshIfNeeded 900000 (inr Scenario.issued) Scenario.wblank Scenario.path in
  fst saved = None ∧
  mode_at (snd saved) Scenario.path = Some 420%N ∧
  Fs.owner_only <$> (Fs.files (snd saved) !! Scenario.path) = Some false ∧
  fst refreshed
    = inl (refreshFailed
             ("ENOENT: no such file or directory, open '" +:+ Scenario.path +:+ "'")) ∧
  Fs.dirs (disk (snd refreshed)) = ∅ ∧
  Fs.files (disk (snd refreshed)) = ∅.
Proof. cbv zeta. repeat split; vm_compute; reflexivity. Qed.

(** * Further properties *)

(** ** The key-file validator *)

Lemma substring_all (s : string) : String.substring 0 (String.length s) s = s.
Proof.
  induction s as [| a s IH]; [reflexivity |].
  cbn [String.length String.substring]. f_equal. exact IH.
Qed.

Lemma substring_after (pre suf : string) :
  String.substring (String.length pre) (String.length suf) (pre +:+ suf) = suf.
Proof.
  induction pre as [| a pre IH].
  - apply substring_all.
  - change (String a pre +:+ suf) with (String a (pre +:+ suf)).
    cbn [String.length String.substring]. exact IH.
Qed.

Lemma length_append (s t : string) :
  String.length (s +:+ t) = (String.length s + String.length t)%nat.
Proof.
  induction s as [| a s IH]; [reflexivity |].
  change (String a s +:+ t) with (String a (s +:+ t)).
  cbn [String.length]. rewrite IH. reflexivity.
Qed.

Lemma substring_split (s : string) (n : nat) :
  (n <= String.length s)%nat →
  s = String.substring 0 n s +:+ String.substring n (String.length s - n) s.
Proof.
  revert n. induction s as [| a s IH]; intros n Hn.
  - destruct n; reflexivity.
  - destruct n as [| n].
    + cbn [String.substring]. change ("" +:+ ?x) with x.
      cbn [String.length Nat.sub String.substring].
      rewrite substring_all. reflexivity.
    + cbn [String.length] in Hn.
      cbn [String.length Nat.sub String.substring].
      change (String a ?x +:+ ?y) with (String a (x +:+ y)).
      f_equal. apply IH. lia.
Qed.

(** [endsWith] holds exactly of the strings that are the suffix with something
    in front. *)
Lemma endsWith_iff (s suffix : string) :
  Json.endsWith s suffix = true ↔ ∃ pre, s = pre +:+ suffix.
Proof.
  unfold Json.endsWith. split.
  - intros H. apply andb_true_iff in H as [Hlen Heq].
    apply Nat.leb_le in Hlen. apply String.eqb_eq in Heq.
    exists (String.substring 0 (String.length s - String.length suffix) s).
    pose proof (substring_split s (String.length s - String.length suffix)) as Hs.
    replace (String.length s - (String.length s - String.length suffix))%nat
      with (String.length suffix) in Hs by lia.
    rewrite Heq in Hs. apply Hs. lia.
  - intros [pre ->]. rewrite length_append. apply andb_true_iff. split.
    + apply Nat.leb_le. lia.
    + replace (String.length pre + String.length suffix - String.length suffix)%nat
        with (String.length pre) by lia.
      rewrite substring_after. apply String.eqb_refl.
Qed.

Lemma has_some_true (k : string) (data : Json.value) :
  Json.has k data = Some true →
  ∃ fields v, data = Json.Obj fields ∧ Json.field k fields = Some v.
Proof.
  destruct data as [| b | z | s | items | fields]; simpl; try discriminate.
  destruct (Json.field k fields) as [v |] eqn:Hf; [| discriminate].
  intros _. exists fields, v. auto.
Qed.

Lemma has_some_false (k : string) (data : Json.value) :
  Json.has k data = Some false →
  (∃ items, data = Json.Arr items) ∨
  (∃ fields, data = Json.Obj fields ∧ Json.field k fields = None).
Proof.
  destruct data as [| b | z | s | items | fields]; simpl; try discriminate.
  - intros _. left. eauto.
  - destruct (Json.field k fields) eqn:Hf; [discriminate |].
    intros _. right. eauto.
Qed.


Lemma valid_desktop_keys (filePath : string) (kf : keyfile) (clientId : string) :
  validateOAuthFile filePath kf = Valid clientId ↔
  ∃ data, kf = Parsed data ∧ desktop_keys data clientId.
Proof.
  split.
  - unfold validateOAuthFile. destruct kf as [| | data]; try discriminate.
    intros H.
    assert (Hty : Json.is_string (Json.prop data "type") "service_account" = false).
    { destruct (Json.prop data "type") as [| | ty]; [reflexivity | reflexivity |].
      destruct (Json.is_string (Json.Found ty) "service_account"); [discriminate | reflexivity]. }
    assert (H' : match Json.has "web" data with
                 | None => ValidationThrows
                 | Some true => Invalid "This is a Web app OAuth. Create Desktop app instead."
                 | Some false =>
                     match Json.has "installed" data with
                     | None => ValidationThrows
                     | Some false =>
                         Invalid "Invalid OAuth file format - expected Desktop app credentials"
                     | Some true => validateKeys (Json.prop data "installed")
                     end
                 end = Valid clientId).
    { destruct (Json.prop data "type") as [| | ty]; [discriminate | exact H |].
      rewrite Hty in H. exact H. }
    clear H.
    destruct (Json.has "web" data) as [[|] |] eqn:Hweb; try discriminate.
    destruct (Json.has "installed" data) as [[|] |] eqn:Hinst; try discriminate.
    destruct (has_some_true _ _ Hinst) as (fields & keys & -> & Hkeys).
    destruct (has_some_false _ _ Hweb) as [[items Habs] | (fields' & [= <-] & Hnoweb)];
      [discriminate |].
    simpl in H'. rewrite Hkeys in H'. unfold validateKeys in H'.
    destruct (Json.prop keys "client_id") as [| | v] eqn:Hcid; try discriminate.
    destruct (Json.truthy (Json.Found v)) eqn:Htr; [| discriminate].
    cbn [negb] in H'.
    destruct v as [| b | z | s | items | fs]; try discriminate.
    destruct (Json.endsWith s CLIENT_ID_SUFFIX) eqn:Hend; [| discriminate].
    destruct (Json.truthy (Json.prop keys "client_secret")) eqn:Hsec; [| discriminate].
    destruct (Json.truthy (Json.prop keys "redirect_uris")) eqn:Hred; [| discriminate].
    cbn [negb] in H'. injection H' as <-.
    apply endsWith_iff in Hend as [pre Hpre].
    exists (Json.Obj fields). split; [reflexivity |].
    exists fields, keys, pre. repeat split; assumption.
  - intros (data & -> & fields & keys & pre & -> & Hty & Hweb & Hkeys & Hcid & Hpre & Hsec & Hred).
    assert (Hend : Json.endsWith clientId CLIENT_ID_SUFFIX = true).
    { apply endsWith_iff. exists pre. exact Hpre. }
    assert (Htr : Json.truthy (Json.Found (Json.Str clientId)) = true).
    { simpl. rewrite Hpre. destruct pre; reflexivity. }
    assert (Hhas : Json.has "web" (Json.Obj fields) = Some false)
      by (simpl; rewrite Hweb; reflexivity).
    assert (Hhas' : Json.has "installed" (Json.Obj fields) = Some true)
      by (simpl; rewrite Hkeys; reflexivity).
    assert (Hprop : Json.prop (Json.Obj fields) "installed" = Json.Found keys)
      by (simpl; rewrite Hkeys; reflexivity).
    unfold validateOAuthFile.
    destruct (Json.prop (Json.Obj fields) "type") as [| | ty] eqn:Htype.
    + simpl in Htype. destruct (Json.field "type" fields); discriminate.
    + cbn [Json.is_string]. rewrite Hhas, Hhas', Hprop. unfold validateKeys.
      rewrite Hcid, Htr, Hend, Hsec, Hred. reflexivity.
    + rewrite Hty, Hhas, Hhas', Hprop. unfold validateKeys.
      rewrite Hcid, Htr, Hend, Hsec, Hred. reflexivity.
Qed.

(** X1: the validator answers [valid] exactly for a parsed key file of the
    desktop shape, and the client id it returns is the one in the file. *)
Theorem validateOAuthFile_valid_iff (filePath : string) (kf : keyfile) (clientId : string) :
  validateOAuthFile filePath kf = Valid clientId ↔
  ∃ data, kf = Parsed data ∧ desktop_keys data clientId.
Proof. apply valid_desktop_keys. Qed.

Lemma validateOAuthFile_valid_iff_witness :
  validateOAuthFile Keys.oauthPath (Parsed Keys.desktop) = Valid Keys.clientId.
Proof.
  apply (validateOAuthFile_valid_iff Keys.oauthPath (Parsed Keys.desktop) Keys.clientId).
  exists Keys.desktop. split; [reflexivity |].
  exists [("installed", Keys.entries)], Keys.entries, "1234-abc".
  repeat split; reflexivity.
Defined.

Lemma prop_obj_no_throw (fields : list (string * Json.value)) (k : string) :
  Json.prop (Json.Obj fields) k ≠ Json.Throws.
Proof. simpl. destruct (Json.field k fields); discriminate. Qed.

Lemma validateKeys_throws (keys : Json.value) :
  validateKeys (Json.Found keys) = ValidationThrows ↔
  keys = Json.Null ∨
  ∃ v, Json.prop keys "client_id" = Json.Found v ∧
       Json.truthy_value v = true ∧ ∀ s, v ≠ Json.Str s.
Proof.
  unfold validateKeys. split.
  - destruct (Json.prop keys "client_id") as [| | v] eqn:Hcid.
    + intros _. left. destruct keys; simpl in Hcid; try discriminate; [reflexivity |].
      destruct (Json.field "client_id" fields); discriminate.
    + simpl. discriminate.
    + cbn [Json.truthy]. destruct (Json.truthy_value v) eqn:Htr; cbn [negb]; [| discriminate].
      intros H. right. exists v. split; [reflexivity | split; [exact Htr |]].
      intros s ->.
      destruct (Json.endsWith s CLIENT_ID_SUFFIX); cbn [negb] in H; [| discriminate].
      destruct (Json.truthy (Json.prop keys "client_secret")); cbn [negb] in H; [| discriminate].
      destruct (Json.truthy (Json.prop keys "redirect_uris")); discriminate.
  - intros [-> | (v & Hcid & Htr & Hns)]; [reflexivity |].
    rewrite Hcid. cbn [Json.truthy]. rewrite Htr. cbn [negb].
    destruct v; try reflexivity. destruct (Hns s). reflexivity.
Qed.

(** X2: the validator throws, instead of returning [{ valid: false }], exactly
    on the parsed files that [breaks_validator] describes: JSON [null], a
    boolean, a number or a string at top level, an [installed] entry that is
    [null], or a client id that is truthy without being a string. A missing or
    unreadable file never makes it throw. *)
Theorem validateOAuthFile_throws_iff (filePath : string) (kf : keyfile) :
  validateOAuthFile filePath kf = ValidationThrows ↔
  ∃ data, kf = Parsed data ∧ breaks_validator data.
Proof.
  split.
  - destruct kf as [| | data]; try discriminate.
    intros H. exists data. split; [reflexivity |].
    destruct data as [| b | z | s | items | fields]; simpl; try exact I.
    + simpl in H. discriminate.
    + unfold validateOAuthFile in H.
      assert (Hty : Json.is_string (Json.prop (Json.Obj fields) "type") "service_account"
                    = false).
      { destruct (Json.prop (Json.Obj fields) "type") as [| | ty]; [reflexivity | reflexivity |].
        destruct (Json.is_string (Json.Found ty) "service_account");
          [discriminate | reflexivity]. }
      assert (H' : match Json.has "web" (Json.Obj fields) with
                   | None => ValidationThrows
                   | Some true => Invalid "This is a Web app OAuth. Create Desktop app instead."
                   | Some false =>
                       match Json.has "installed" (Json.Obj fields) with
                       | None => ValidationThrows
                       | Some false =>
                           Invalid "Invalid OAuth file format - expected Desktop app credentials"
                       | Some true => validateKeys (Json.prop (Json.Obj fields) "installed")
                       end
                   end = ValidationThrows).
      { destruct (Json.prop (Json.Obj fields) "type") as [| | ty] eqn:Hp.
        - destruct (prop_obj_no_throw _ _ Hp).
        - exact H.
        - rewrite Hty in H. exact H. }
      clear H. simpl in Hty. simpl in H'.
      destruct (Json.field "web" fields) eqn:Hweb; [discriminate |].
      destruct (Json.field "installed" fields) as [keys |] eqn:Hkeys; [| discriminate].
      repeat split; try assumption.
      exists keys. split; [reflexivity |]. apply validateKeys_throws. exact H'.
  - intros (data & -> & Hbreak).
    destruct data as [| b | z | s | items | fields]; try reflexivity.
    + destruct Hbreak.
    + destruct Hbreak as (Hty & Hweb & keys & Hkeys & Hbad).
      apply validateKeys_throws in Hbad.
      unfold validateOAuthFile.
      assert (Hhas : Json.has "web" (Json.Obj fields) = Some false)
        by (simpl; rewrite Hweb; reflexivity).
      assert (Hhas' : Json.has "installed" (Json.Obj fields) = Some true)
        by (simpl; rewrite Hkeys; reflexivity).
      assert (Hprop : Json.prop (Json.Obj fields) "installed" = Json.Found keys)
        by (simpl; rewrite Hkeys; reflexivity).
      destruct (Json.prop (Json.Obj fields) "type") as [| | ty] eqn:Htype.
      * reflexivity.
      * cbn [Json.is_string]. rewrite Hhas, Hhas', Hprop. exact Hbad.
      * rewrite Hty, Hhas, Hhas', Hprop. exact Hbad.
Qed.

Lemma validateOAuthFile_throws_iff_witness :
  validateOAuthFile Keys.oauthPath (Parsed Keys.numeric_id) = ValidationThrows ∧
  validateOAuthFile Keys.oauthPath (Parsed Json.Null) = ValidationThrows.
Proof.
  split.
  - apply (validateOAuthFile_throws_iff Keys.oauthPath (Parsed Keys.numeric_id)).
    exists Keys.numeric_id. split; [reflexivity |].
    simpl. repeat split.
    exists (Json.Obj [("client_id", Json.Num 1234)]). split; [reflexivity |].
    right. exists (Json.Num 1234). repeat split. discriminate.
  - apply (validateOAuthFile_throws_iff Keys.oauthPath (Parsed Json.Null)).
    exists Json.Null. split; [reflexivity | exact I].
Defined.

(** ** Loading the client *)

Lemma loop_result (all rest : list N) (bound bound' : gset N) (r : string + N) :
  findAvailablePort_loop all rest bound = (r, bound') →
  bound' = bound ∧
  match r with
  | inr p => p ∈ rest ∧ p ∉ bound
  | inl msg =>
      Forall (λ q, q ∈ bound) rest ∧
      msg = "No available ports found. Tried: " +:+ Js.join ", " (map Js.showN all)
  end.
Proof.
  revert bound'. induction rest as [| q rest IH]; intros bound' H; simpl in H.
  - injection H as <- <-. repeat split. constructor.
  - destruct (decide (q ∈ bound)) as [Hq | Hq].
    + rewrite isPortAvailable_bound in H by exact Hq.
      destruct (IH bound' H) as [-> Hr]. split; [reflexivity |].
      destruct r as [msg | p].
      * destruct Hr as [Hall Hmsg]. split; [constructor; assumption | exact Hmsg].
      * destruct Hr as [Hin Hfree]. split; [apply elem_of_cons; right; exact Hin | exact Hfree].
    + rewrite isPortAvailable_free in H by exact Hq.
      injection H as <- <-. repeat split; [constructor | exact Hq].
Qed.

Lemma findAvailablePort_result (bound bound' : gset N) (r : string + N) :
  findAvailablePort bound = (r, bound') →
  bound' = bound ∧
  match r with
  | inr p => p ∈ OAUTH_PORTS ∧ p ∉ bound
  | inl msg =>
      Forall (λ q, q ∈ bound) OAUTH_PORTS ∧
      msg = "No available ports found. Tried: 3000, 3001, 3002"
  end.
Proof.
  intros H. destruct (loop_result _ _ _ _ _ H) as [-> Hr].
  split; [reflexivity | exact Hr].
Qed.

(** What a successful load returns, read back from the call. *)
Lemma loadOAuthClient_inr (oauthPath : string) (kf : keyfile) (credentialsPath : string)
    (fs : Fs.t) (bound bound' : gset N) (loaded : Loaded) :
  loadOAuthClient oauthPath kf credentialsPath fs bound = (inr loaded, bound') →
  bound' = bound ∧
  authPort loaded ∈ OAUTH_PORTS ∧
  (authPort loaded ∉ bound) ∧
  findAvailablePort bound = (inr (authPort loaded), bound) ∧
  redirectUri loaded
    = "http://localhost:" +:+ Js.showN (authPort loaded) +:+ "/oauth2callback" ∧
  client loaded = loadCredentials fs credentialsPath ∧
  warned loaded = credentialsUnusable fs credentialsPath.
Proof.
  unfold loadOAuthClient. destruct kf as [| | data]; try discriminate.
  destruct (Json.prop data "installed") as [| | v]; try discriminate.
  - destruct (negb (Json.truthy (if Json.truthy Json.Absent then Json.Absent
                                 else Json.prop data "web"))); [discriminate |].
    destruct (findAvailablePort bound) as [[msg | port] b] eqn:Hport; [discriminate |].
    intros [= <- <-]. destruct (findAvailablePort_result _ _ _ Hport) as [-> [Hin Hfree]].
    simpl. auto 10.
  - destruct (negb (Json.truthy (if Json.truthy (Json.Found v) then Json.Found v
                                 else Json.prop data "web"))); [discriminate |].
    destruct (findAvailablePort bound) as [[msg | port] b] eqn:Hport; [discriminate |].
    intros [= <- <-]. destruct (findAvailablePort_result _ _ _ Hport) as [-> [Hin Hfree]].
    simpl. auto 10.
Qed.

(** Every outcome of a load leaves the bound ports as they were. *)
Lemma loadOAuthClient_ports (oauthPath : string) (kf : keyfile) (credentialsPath : string)
    (fs : Fs.t) (bound : gset N) :
  snd (loadOAuthClient oauthPath kf credentialsPath fs bound) = bound.
Proof.
  unfold loadOAuthClient. destruct kf as [| | data]; try reflexivity.
  destruct (Json.prop data "installed") as [| | v]; try reflexivity.
  - destruct (negb (Json.truthy (if Json.truthy Json.Absent then Json.Absent
                                 else Json.prop data "web"))); [reflexivity |].
    destruct (findAvailablePort bound) as [[msg | port] b] eqn:Hport;
      destruct (findAvailablePort_result _ _ _ Hport) as [-> _]; reflexivity.
  - destruct (negb (Json.truthy (if Json.truthy (Json.Found v) then Json.Found v
                                 else Json.prop data "web"))); [reflexivity |].
    destruct (findAvailablePort bound) as [[msg | port] b] eqn:Hport;
      destruct (findAvailablePort_result _ _ _ Hport) as [-> _]; reflexivity.
Qed.

Lemma authenticate_listen_free (bound : gset N) (port : N) (w : World) :
  port ∉ bound →
  authenticate_listen bound port w = (inr (awaiting w), bound ∪ {[port]}).
Proof.
  intros Hfree. unfold authenticate_listen, Net.listen.
  rewrite bool_decide_eq_false_2 by exact Hfree. reflexivity.
Qed.

(** X3: a key file that the validator accepts is accepted by
    [loadOAuthClient] too: the load can only fail for want of a free port, and
    when it succeeds the client is built from the validated client id and a
    truthy secret. *)
Theorem validated_keys_load (filePath oauthPath : string) (kf : keyfile)
    (clientId credentialsPath : string) (fs : Fs.t) (bound : gset N) :
  validateOAuthFile filePath kf = Valid clientId →
  (∃ loaded,
     loadOAuthClient oauthPath kf credentialsPath fs bound = (inr loaded, bound) ∧
     client_id loaded = Json.Found (Json.Str clientId) ∧
     Json.truthy (client_secret loaded) = true)
  ∨
  (Forall (λ p, p ∈ bound) OAUTH_PORTS ∧
   loadOAuthClient oauthPath kf credentialsPath fs bound
     = (inl (Error "No available ports found. Tried: 3000, 3001, 3002"), bound)).
Proof.
  intros Hvalid.
  apply valid_desktop_keys in Hvalid
    as (data & -> & fields & keys & pre & -> & _ & _ & Hkeys & Hcid & Hpre & Hsec & _).
  assert (Hk : Json.truthy (Json.Found keys) = true).
  { destruct keys as [| b | z | s | items | kfields]; simpl in Hcid; try discriminate.
    reflexivity. }
  assert (Hp : Json.prop (Json.Obj fields) "installed" = Json.Found keys)
    by (simpl; rewrite Hkeys; reflexivity).
  unfold loadOAuthClient. rewrite Hp. cbv beta iota.
  rewrite Hk. cbv beta iota. rewrite Hk. cbn [negb].
  destruct (findAvailablePort bound) as [[msg | port] b] eqn:Hport;
    destruct (findAvailablePort_result _ _ _ Hport) as [-> Hr].
  - right. destruct Hr as [Hall ->]. split; [exact Hall | reflexivity].
  - left. eexists. split; [reflexivity |]. simpl. rewrite Hcid. auto.
Qed.

Lemma validated_keys_load_witness :
  ∃ loaded,
    loadOAuthClient Keys.oauthPath (Parsed Keys.desktop) Scenario.path Scenario.disk0
      {[3000%N]} = (inr loaded, {[3000%N]}) ∧
    client_id loaded = Json.Found (Json.Str Keys.clientId).
Proof.
  destruct (validated_keys_load Keys.oauthPath Keys.oauthPath (Parsed Keys.desktop)
              Keys.clientId Scenario.path Scenario.disk0 {[3000%N]})
    as [(loaded & Hload & Hid & _) | [Hall _]].
  - reflexivity.
  - exists loaded. split; assumption.
  - exfalso. apply Forall_cons in Hall as [_ Hall].
    apply Forall_cons in Hall as [H3001 _].
    apply elem_of_singleton in H3001. discriminate H3001.
Defined.

(** X4: the port that a successful load returns is one of the three
    candidates and free, the redirect URI of the client names that port, the
    bound ports are as before, and [authenticate] on that port binds its
    listener: the session starts pending, with the loaded credentials. *)
Theorem loaded_port_binds (oauthPath : string) (kf : keyfile) (credentialsPath : string)
    (fs : Fs.t) (bound bound' : gset N) (loaded : Loaded) :
  loadOAuthClient oauthPath kf credentialsPath fs bound = (inr loaded, bound') →
  bound' = bound ∧
  authPort loaded ∈ OAUTH_PORTS ∧
  (authPort loaded ∉ bound) ∧
  redirectUri loaded
    = "http://localhost:" +:+ Js.showN (authPort loaded) +:+ "/oauth2callback" ∧
  authenticate_listen bound' (authPort loaded) (client loaded)
    = (inr (awaiting (loadCredentials fs credentialsPath)),
       bound ∪ {[authPort loaded]}).
Proof.
  intros Hload.
  destruct (loadOAuthClient_inr _ _ _ _ _ _ _ Hload)
    as (-> & Hin & Hfree & _ & Huri & Hclient & _).
  repeat split; try assumption.
  rewrite Hclient. apply authenticate_listen_free, Hfree.
Qed.

Lemma loaded_port_binds_witness :
  authenticate_listen {[3000%N]} 3001 (loadCredentials Scenario.disk0 Scenario.path)
  = (inr (awaiting (loadCredentials Scenario.disk0 Scenario.path)),
     {[3000%N]} ∪ {[3001%N]}).
Proof.
  destruct (loadOAuthClient Keys.oauthPath (Parsed Keys.desktop) Scenario.path
              Scenario.disk0 {[3000%N]}) as [[f | loaded] b] eqn:Hload.
  - vm_compute in Hload. discriminate Hload.
  - destruct (loaded_port_binds _ _ _ _ _ _ _ Hload) as (-> & _ & _ & _ & Hbind).
    assert (Hport : authPort loaded = 3001%N).
    { vm_compute in Hload. injection Hload as <-. reflexivity. }
    assert (Hclient : client loaded = loadCredentials Scenario.disk0 Scenario.path).
    { vm_compute in Hload. injection Hload as <-. vm_compute. reflexivity. }
    rewrite Hport, Hclient in Hbind. exact Hbind.
Defined.

(** ** Starting the server *)

Lemma refreshIfNeeded_inr (now : Z) (reply : string + Credentials)
    (w w' : World) (path : string) (b : bool) :
  refreshIfNeeded now reply w path = (inr b, w') →
  ∃ c,
    credentials w = Some c ∧
    Js.truthy (access_token c) = true ∧
    ((b = false ∧ needsRefresh now (expiry_date c) = false ∧ w' = w) ∨
     (b = true ∧ needsRefresh now (expiry_date c) = true ∧
      Js.truthy (refresh_token c) = true ∧
      ∃ refreshed fs',
        reply = inr refreshed ∧
        Fs.writeFileSync (disk w) path (Fs.Json refreshed) = inr fs' ∧
        w' = mkWorld (Some refreshed) fs')).
Proof.
  unfold refreshIfNeeded.
  destruct (credentials w) as [c |]; [| discriminate].
  destruct (Js.truthy (access_token c)) eqn:Hat; cbn [negb]; [| discriminate].
  destruct (needsRefresh now (expiry_date c)) eqn:Hneed.
  - destruct (Js.truthy (refresh_token c)) eqn:Hrt; cbn [negb]; [| discriminate].
    destruct reply as [msg | refreshed]; [discriminate |]. simpl.
    destruct (Fs.writeFileSync (disk w) path (Fs.Json refreshed)) as [msg | fs'] eqn:Hwr;
      [discriminate |].
    intros [= <- <-]. exists c. split; [reflexivity | split; [exact Hat |]].
    right. split; [reflexivity | split; [exact Hneed | split; [exact Hrt |]]].
    exists refreshed, fs'. auto.
  - intros [= <- <-]. exists c. split; [reflexivity | split; [exact Hat |]].
    left. auto.
Qed.

Lemma loadCredentials_unusable (fs : Fs.t) (path : string) :
  (∀ c, stored_at fs path ≠ Some (Fs.Json c)) →
  loadCredentials fs path = mkWorld (Some noCredentials) fs.
Proof.
  unfold stored_at, loadCredentials. intros Hno.
  destruct (Fs.files fs !! path) as [f |]; [| reflexivity].
  destruct (Fs.content f) as [c | s] eqn:Hc; [| reflexivity].
  destruct (Hno c). simpl. rewrite Hc. reflexivity.
Qed.

(** X5: when the credential file is missing or does not parse, the load still
    succeeds with a client that holds no tokens; the refresh gate then throws
    the no-credentials error without touching anything, and a server start
    that is not [auth] exits with failure. *)
Theorem unusable_credentials_need_auth (oauthPath : string) (kf : keyfile)
    (path : string) (fs : Fs.t) (bound bound' : gset N) (loaded : Loaded) :
  loadOAuthClient oauthPath kf path fs bound = (inr loaded, bound') →
  (∀ c, stored_at fs path ≠ Some (Fs.Json c)) →
  client loaded = mkWorld (Some noCredentials) fs ∧
  (∀ now reply,
     refreshIfNeeded now reply (client loaded) path
       = (inl ERR_NO_CREDENTIALS, client loaded)) ∧
  (∀ argv2 now reply,
     argv2 ≠ Some "auth" →
     startServer argv2 oauthPath kf path fs bound now reply = (ExitFailure, bound)).
Proof.
  intros Hload Hno.
  destruct (loadOAuthClient_inr _ _ _ _ _ _ _ Hload) as (-> & _ & _ & _ & _ & Hclient & _).
  rewrite (loadCredentials_unusable fs path Hno) in Hclient.
  split; [exact Hclient | split].
  - intros now reply. rewrite Hclient. reflexivity.
  - intros argv2 now reply Hne. unfold startServer. rewrite Hload.
    assert (Hmode : match argv2 with Some a => String.eqb a "auth" | None => false end = false).
    { destruct argv2 as [a |]; [| reflexivity].
      apply String.eqb_neq. intros ->. apply Hne. reflexivity. }
    rewrite Hmode, Hclient. reflexivity.
Qed.

Lemma unusable_credentials_need_auth_witness :
  startServer None Keys.oauthPath (Parsed Keys.desktop) Scenario.path Scenario.blank ∅
    0 (inr Scenario.issued) = (ExitFailure, ∅).
Proof.
  destruct (loadOAuthClient Keys.oauthPath (Parsed Keys.desktop) Scenario.path
              Scenario.blank ∅) as [[f | loaded] b] eqn:Hload.
  - vm_compute in Hload. discriminate Hload.
  - destruct (unusable_credentials_need_auth _ _ _ _ _ _ _ Hload) as (_ & _ & Hstart).
    + intros c. vm_compute. discriminate.
    + apply Hstart. discriminate.
Defined.

(** X6: a server that gets past its start holds a record with an access
    token that the gate either found fresh, in which case nothing changed, or
    has just replaced: the provider returned a refreshed record, and that
    record is both in the client and in the credential file. The start
    binds no port. *)
Theorem server_starts_with_usable_token (argv2 : option string) (oauthPath : string)
    (kf : keyfile) (path : string) (fs : Fs.t) (bound bound' : gset N)
    (now : Z) (reply : string + Credentials) (w : World) :
  startServer argv2 oauthPath kf path fs bound now reply = (Serving w, bound') →
  bound' = bound ∧
  ∃ c,
    credentials (loadCredentials fs path) = Some c ∧
    Js.truthy (access_token c) = true ∧
    ((needsRefresh now (expiry_date c) = false ∧ w = loadCredentials fs path) ∨
     (needsRefresh now (expiry_date c) = true ∧
      Js.truthy (refresh_token c) = true ∧
      ∃ refreshed,
        reply = inr refreshed ∧
        credentials w = Some refreshed ∧
        stored_at (disk w) path = Some (Fs.Json refreshed))).
Proof.
  unfold startServer.
  destruct (loadOAuthClient oauthPath kf path fs bound) as [[f | loaded] b] eqn:Hload;
    [discriminate |].
  destruct (loadOAuthClient_inr _ _ _ _ _ _ _ Hload) as (-> & _ & _ & _ & _ & Hclient & _).
  destruct (match argv2 with Some a => String.eqb a "auth" | None => false end).
  { destruct (authenticate_listen bound (authPort loaded) (client loaded)). discriminate. }
  destruct (refreshIfNeeded now reply (client loaded) path) as [[msg | r] w'] eqn:Href;
    [discriminate |].
  intros [= <- <-]. split; [reflexivity |].
  destruct (refreshIfNeeded_inr _ _ _ _ _ _ Href) as (c & Hc & Hat & Hcase).
  rewrite Hclient in Hc. exists c. split; [exact Hc | split; [exact Hat |]].
  destruct Hcase as [(_ & Hfresh & ->) | (_ & Hneed & Hrt & refreshed & fs' & -> & Hwr & ->)].
  - left. rewrite Hclient. auto.
  - right. repeat split; try assumption.
    exists refreshed. repeat split.
    destruct (writeFileSync_inr _ _ _ _ Hwr) as (_ & _ & Hst & _). exact Hst.
Qed.

Lemma server_starts_with_usable_token_witness :
  ∃ c, credentials (loadCredentials Scenario.disk0 Scenario.path) = Some c ∧
       Js.truthy (access_token c) = true.
Proof.
  destruct (startServer None Keys.oauthPath (Parsed Keys.desktop) Scenario.path
              Scenario.disk0 ∅ 900000 (inr Scenario.issued)) as [s b] eqn:Hstart.
  destruct s as [| flow | w].
  - vm_compute in Hstart. discriminate Hstart.
  - vm_compute in Hstart. discriminate Hstart.
  - destruct (server_starts_with_usable_token _ _ _ _ _ _ _ _ _ _ Hstart)
      as (_ & c & Hc & Hat & _).
    exists c. split; assumption.
Defined.

(** X7: started with [auth], the server either fails to load its client or
    enters the interactive flow with its listener bound on the port that the
    load selected; the bind does not fail on a port that the selector has
    just found free. *)
Theorem auth_start_binds_selected_port (oauthPath : string) (kf : keyfile)
    (path : string) (fs : Fs.t) (bound : gset N)
    (now : Z) (reply : string + Credentials) :
  (∃ failure,
     loadOAuthClient oauthPath kf path fs bound = (inl failure, bound) ∧
     startServer (Some "auth") oauthPath kf path fs bound now reply
       = (ExitFailure, bound))
  ∨
  (∃ loaded,
     loadOAuthClient oauthPath kf path fs bound = (inr loaded, bound) ∧
     (authPort loaded ∉ bound) ∧
     startServer (Some "auth") oauthPath kf path fs bound now reply
       = (Authenticating (inr (awaiting (loadCredentials fs path))),
          bound ∪ {[authPort loaded]})).
Proof.
  unfold startServer.
  pose proof (loadOAuthClient_ports oauthPath kf path fs bound) as Hports.
  destruct (loadOAuthClient oauthPath kf path fs bound) as [[f | loaded] b] eqn:Hload;
    simpl in Hports; subst b.
  - left. exists f. auto.
  - right. exists loaded.
    destruct (loadOAuthClient_inr _ _ _ _ _ _ _ Hload) as (_ & _ & Hfree & _ & _ & Hclient & _).
    split; [reflexivity | split; [exact Hfree |]].
    change (String.eqb "auth" "auth") with true. cbv beta iota.
    rewrite authenticate_listen_free by exact Hfree. rewrite Hclient. reflexivity.
Qed.

(** ** More on the interactive session *)

Lemma remove_first_length (code : string) (codes : list string) :
  existsb (String.eqb code) codes = true →
  S (length (remove_first code codes)) = length codes.
Proof.
  induction codes as [| c codes IH]; simpl; [discriminate |].
  rewrite String.eqb_sym. destruct (String.eqb c code); simpl.
  - reflexivity.
  - intros H. rewrite (IH H). reflexivity.
Qed.

Lemma step_accounting (path : string) (st : Session) (ev : event) :
  (length (responses (step path st ev)) + length (inflight (step path st ev)) =
   length (responses st) + length (inflight st) +
   match ev with Request _ => 1 | _ => 0 end)%nat.
Proof.
  destruct ev as [url | code reply | | msg]; simpl.
  - unfold on_request, on_code.
    destruct (isResolved st) eqn:Hres; handler_cases;
      repeat rewrite cleanup_resolved by (simpl; assumption);
      repeat rewrite cleanup_pending by (simpl; assumption);
      simpl; rewrite ?length_app; simpl; lia.
  - unfold on_token_reply.
    destruct (existsb (String.eqb code) (inflight st)) eqn:Hin; simpl; [| lia].
    pose proof (remove_first_length _ _ Hin) as Hlen.
    destruct reply as [m | tokens].
    + unfold exchangeFailed.
      destruct (isResolved st) eqn:Hres;
        [rewrite cleanup_resolved by (simpl; assumption)
        | rewrite cleanup_pending by (simpl; assumption)];
        simpl; rewrite length_app; simpl; lia.
    + destruct (saveTokens _ path tokens) as [[m |] fs']; unfold exchangeFailed;
        (destruct (isResolved st) eqn:Hres;
          [rewrite cleanup_resolved by (simpl; assumption)
          | rewrite cleanup_pending by (simpl; assumption)]);
        simpl; rewrite length_app; simpl; lia.
  - unfold cleanup. destruct (isResolved st); simpl; lia.
  - unfold cleanup. destruct (isResolved st); simpl; lia.
Qed.

Lemma run_accounting (path : string) (evs : list event) (st : Session) :
  (length (responses (run path st evs)) + length (inflight (run path st evs)) =
   length (responses st) + length (inflight st) + count_requests evs)%nat.
Proof.
  revert st. induction evs as [| ev evs IH]; intros st.
  - simpl. unfold count_requests. simpl. lia.
  - change (run path st (ev :: evs)) with (run path (step path st ev) evs).
    rewrite IH, step_accounting. unfold count_requests.
    destruct ev; simpl; lia.
Qed.

(** X8: in every session, each request that has come in is either answered,
    with exactly one response, or waiting for its token exchange: responses
    and exchanges under way add up to the number of requests. *)
Theorem every_request_is_accounted_for (path : string) (w : World) (evs : list event) :
  (length (responses (run path (awaiting w) evs)) +
   length (inflight (run path (awaiting w) evs)) = count_requests evs)%nat.
Proof. rewrite run_accounting. reflexivity. Qed.

Lemma step_world (path : string) (st : Session) (ev : event) :
  is_grant_reply ev = false → world (step path st ev) = world st.
Proof.
  intros Hev. destruct ev as [url | code reply | | msg]; simpl.
  - unfold on_request, on_code.
    destruct (isResolved st) eqn:Hres; handler_cases;
      repeat rewrite cleanup_resolved by (simpl; assumption);
      repeat rewrite cleanup_pending by (simpl; assumption);
      reflexivity.
  - destruct reply as [m | tokens]; [| discriminate].
    unfold on_token_reply. destruct (existsb (String.eqb code) (inflight st)); simpl;
      [| reflexivity].
    unfold exchangeFailed, cleanup. simpl. destruct (isResolved st); reflexivity.
  - unfold cleanup. destruct (isResolved st); reflexivity.
  - unfold cleanup. destruct (isResolved st); reflexivity.
Qed.

(** X9: whatever the state of a session, its client and its disk change only
    when a token exchange succeeds: every other event, a denial, a malformed
    or stray request, a failed exchange, the deadline, a listener error,
    leaves both as they are. *)
Theorem only_a_granted_exchange_touches_the_world (path : string) (st : Session)
    (evs : list event) :
  forallb (λ ev, negb (is_grant_reply ev)) evs = true →
  world (run path st evs) = world st.
Proof.
  revert st. induction evs as [| ev evs IH]; intros st Hall; [reflexivity |].
  simpl in Hall. apply andb_true_iff in Hall as [Hev Hall].
  change (run path st (ev :: evs)) with (run path (step path st ev) evs).
  rewrite (IH _ Hall). apply step_world. apply negb_true_iff. exact Hev.
Qed.

Lemma only_a_granted_exchange_touches_the_world_witness :
  world (run Scenario.path (awaiting Scenario.w0)
           [Request (Some "/favicon.ico");
            Request (Some "/oauth2callback?code=abc");
            TokenReply "abc" (inl "invalid_grant");
            TimerFired])
  = Scenario.w0.
Proof.
  apply (only_a_granted_exchange_touches_the_world Scenario.path (awaiting Scenario.w0)).
  reflexivity.
Defined.

Lemma writeFileSync_frame (fs : Fs.t) (p : string) (d : Fs.data) (r : string + Fs.t) :
  Fs.writeFileSync fs p d = r →
  match r with
  | inl _ => True
  | inr fs' => ∀ q, q ≠ p → Fs.files fs' !! q = Fs.files fs !! q
  end.
Proof.
  intros <-. unfold Fs.writeFileSync.
  destruct (Fs.files fs !! p) as [f |].
  - intros q Hq. simpl. apply lookup_insert_ne. congruence.
  - destruct (Fs.is_dir fs p); [exact I |].
    destruct (Fs.dir_ok fs (Fs.dirname p)).
    + intros q Hq. simpl. apply lookup_insert_ne. congruence.
    + destruct (Fs.is_file fs (Fs.dirname p)); exact I.
Qed.

(** Whatever [saveTokens] ends in, other files are as before and the journal
    has grown by at most the one write of the record. *)
Lemma saveTokens_frame (fs fs' : Fs.t) (path : string) (tokens : Credentials)
    (thrown : option string) :
  saveTokens fs path tokens = (thrown, fs') →
  (∀ q, q ≠ path → Fs.files fs' !! q = Fs.files fs !! q) ∧
  (Fs.writes fs' = Fs.writes fs ∧ stored_at fs' path = stored_at fs path ∨
   Fs.writes fs' = Fs.writes fs ++ [(path, Fs.Json tokens)] ∧
   stored_at fs' path = Some (Fs.Json tokens)).
Proof.
  destruct thrown as [msg |]; intros Hsave.
  - destruct (saveTokens_thrown _ _ _ _ _ Hsave) as [Hfiles Hw].
    unfold stored_at. rewrite Hfiles. auto.
  - destruct (saveTokens_ok _ _ _ _ Hsave) as (Hst & Hw & _). split; [| auto].
    revert Hsave. unfold saveTokens. fold (Fs.dirname path).
    destruct (negb (String.eqb (Fs.dirname path) "") &&
              negb (Fs.existsSync fs (Fs.dirname path))).
    + destruct (Fs.mkdirSync_recursive fs (Fs.dirname path)) as [m | fs1] eqn:Hdir;
        [discriminate |].
      destruct (Fs.writeFileSync fs1 path (Fs.Json tokens)) as [m | fs2] eqn:Hwr;
        [discriminate |].
      intros [= <-] q Hq.
      rewrite (writeFileSync_frame _ _ _ _ Hwr q Hq).
      destruct (mkdirSync_recursive_inr _ _ _ Hdir) as (-> & _). reflexivity.
    + destruct (Fs.writeFileSync fs path (Fs.Json tokens)) as [m | fs2] eqn:Hwr;
        [discriminate |].
      intros [= <-] q Hq. apply (writeFileSync_frame _ _ _ _ Hwr q Hq).
Qed.

(** One event: other files stay, the journal grows by writes of records to
    the credential path only, and the credential file is either as before or
    holds a record. *)
Lemma step_frame (path : string) (st : Session) (ev : event) :
  (∀ q, q ≠ path →
     Fs.files (disk (world (step path st ev))) !! q = Fs.files (disk (world st)) !! q) ∧
  (∃ recs,
     Fs.writes (disk (world (step path st ev)))
       = Fs.writes (disk (world st)) ++ map (λ c, (path, Fs.Json c)) recs) ∧
  (stored_at (disk (world (step path st ev))) path = stored_at (disk (world st)) path ∨
   ∃ c, stored_at (disk (world (step path st ev))) path = Some (Fs.Json c)).
Proof.
  destruct (is_grant_reply ev) eqn:Hev.
  - destruct ev as [url | code [m | tokens] | | msg]; try discriminate.
    simpl. unfold on_token_reply.
    destruct (existsb (String.eqb code) (inflight st)); simpl;
      [| split; [auto | split; [exists []; simpl; rewrite app_nil_r; reflexivity | auto]]].
    destruct (saveTokens (disk (world st)) path tokens) as [thrown fs'] eqn:Hsave.
    destruct (saveTokens_frame _ _ _ _ _ Hsave) as [Hother Hcase].
    assert (Hw : disk (world (match thrown with
                              | Some msg =>
                                  exchangeFailed
                                    (set_world (set_inflight st (remove_first code (inflight st)))
                                       (mkWorld (Some tokens) fs')) msg
                              | None =>
                                  cleanup
                                    (respond
                                       (set_world (set_inflight st (remove_first code (inflight st)))
                                          (mkWorld (Some tokens) fs')) 200 successPage)
                                    None
                              end)) = fs').
    { destruct thrown; unfold exchangeFailed, cleanup; simpl;
        destruct (isResolved st); reflexivity. }
    assert (Hgoal : ∀ s, disk (world s) = fs' →
              (∀ q, q ≠ path → Fs.files (disk (world s)) !! q = Fs.files (disk (world st)) !! q) ∧
              (∃ recs, Fs.writes (disk (world s))
                       = Fs.writes (disk (world st)) ++ map (λ c, (path, Fs.Json c)) recs) ∧
              (stored_at (disk (world s)) path = stored_at (disk (world st)) path ∨
               ∃ c, stored_at (disk (world s)) path = Some (Fs.Json c))).
    { intros s ->. split; [exact Hother | split].
      - destruct Hcase as [[Hsame _] | [Happ _]].
        + exists []. simpl. rewrite app_nil_r. exact Hsame.
        + exists [tokens]. exact Happ.
      - destruct Hcase as [[_ Hsame] | [_ Hnew]]; [left; exact Hsame | right; eauto]. }
    destruct thrown; apply Hgoal; exact Hw.
  - rewrite (step_world path st ev Hev).
    split; [auto | split; [exists []; simpl; rewrite app_nil_r; reflexivity | auto]].
Qed.

Lemma run_frame (path : string) (evs : list event) (st : Session) :
  (∀ q, q ≠ path →
     Fs.files (disk (world (run path st evs))) !! q = Fs.files (disk (world st)) !! q) ∧
  (∃ recs,
     Fs.writes (disk (world (run path st evs)))
       = Fs.writes (disk (world st)) ++ map (λ c, (path, Fs.Json c)) recs) ∧
  (stored_at (disk (world (run path st evs))) path = stored_at (disk (world st)) path ∨
   ∃ c, stored_at (disk (world (run path st evs))) path = Some (Fs.Json c)).
Proof.
  revert st. induction evs as [| ev evs IH]; intros st.
  - simpl. split; [auto | split; [exists []; simpl; rewrite app_nil_r; reflexivity | auto]].
  - change (run path st (ev :: evs)) with (run path (step path st ev) evs).
    destruct (IH (step path st ev)) as (Hother & [recs Hw] & Hst).
    destruct (step_frame path st ev) as (Hother1 & [recs1 Hw1] & Hst1).
    split; [| split].
    + intros q Hq. rewrite (Hother q Hq). apply Hother1, Hq.
    + exists (recs1 ++ recs). rewrite Hw, Hw1, map_app, app_assoc. reflexivity.
    + destruct Hst as [Hsame | Hnew]; [| right; exact Hnew].
      rewrite Hsame. exact Hst1.
Qed.

(** X10: a session, whatever it is sent, touches no file but the credential
    file, and what it writes there are whole records: every entry it adds to
    the journal of writes is a serialised record at the credential path. *)
Theorem session_writes_only_the_credential_file (path : string) (st : Session)
    (evs : list event) :
  (∀ q, q ≠ path →
     Fs.files (disk (world (run path st evs))) !! q = Fs.files (disk (world st)) !! q) ∧
  (∃ recs,
     Fs.writes (disk (world (run path st evs)))
       = Fs.writes (disk (world st)) ++ map (λ c, (path, Fs.Json c)) recs).
Proof.
  destruct (run_frame path evs st) as (Hother & Hw & _). split; assumption.
Qed.

Lemma session_writes_only_the_credential_file_witness :
  Fs.files (disk (world (run Scenario.path (awaiting Scenario.w0)
                           [Request (Some "/oauth2callback?code=abc");
                            TokenReply "abc" (inr Scenario.issued)])))
    !! Keys.oauthPath
  = Fs.files Scenario.disk0 !! Keys.oauthPath.
Proof.
  destruct (session_writes_only_the_credential_file Scenario.path (awaiting Scenario.w0)
              [Request (Some "/oauth2callback?code=abc");
               TokenReply "abc" (inr Scenario.issued)]) as [Hother _].
  apply (Hother Keys.oauthPath). discriminate.
Defined.

(** X11: when the exchange of a pending session fails, at the provider or
    while the record is saved, [authenticate] is rejected with the exchange
    error carrying the cause, the request is answered with 500, timer and
    listener are released, and the credential file and the journal of writes
    are as before. A failure at the provider leaves the client untouched; a
    failure of the save comes after [setCredentials], so the client already
    holds the tokens that did not reach the disk. *)
Theorem failed_grant_rejects (path : string) (st : Session) (code : string)
    (reply : string + Credentials) (msg : string) :
  isResolved st = false →
  existsb (String.eqb code) (inflight st) = true →
  (reply = inl msg ∨
   ∃ tokens, reply = inr tokens ∧
             fst (saveTokens (disk (world st)) path tokens) = Some msg) →
  settled (step path st (TokenReply code reply))
    = settled st ++ [Rejected ("Failed to exchange authorization code: " +:+ msg)] ∧
  responses (step path st (TokenReply code reply))
    = responses st ++ [mkResponse 500 ("Authentication failed: " +:+ msg)] ∧
  listening (step path st (TokenReply code reply)) = false ∧
  timerArmed (step path st (TokenReply code reply)) = false ∧
  stored_at (disk (world (step path st (TokenReply code reply)))) path
    = stored_at (disk (world st)) path ∧
  Fs.writes (disk (world (step path st (TokenReply code reply))))
    = Fs.writes (disk (world st)) ∧
  (reply = inl msg → world (step path st (TokenReply code reply)) = world st) ∧
  (∀ tokens, reply = inr tokens →
     credentials (world (step path st (TokenReply code reply))) = Some tokens).
Proof.
  intros Hres Hin Hfail. simpl. unfold on_token_reply. rewrite Hin. cbn [negb].
  destruct Hfail as [-> | (tokens & -> & Hsave)].
  - unfold exchangeFailed. rewrite cleanup_pending by (simpl; assumption). simpl.
    repeat split; try reflexivity. intros tokens [=].
  - simpl. destruct (saveTokens (disk (world st)) path tokens) as [thrown fs'] eqn:Hs.
    simpl in Hsave. subst thrown.
    destruct (saveTokens_thrown _ _ _ _ _ Hs) as [Hfiles Hw].
    unfold exchangeFailed. rewrite cleanup_pending by (simpl; assumption). simpl.
    repeat split; try reflexivity.
    + unfold stored_at. rewrite Hfiles. reflexivity.
    + exact Hw.
    + intros [=].
    + intros t [= <-]. reflexivity.
Qed.

Lemma failed_grant_rejects_witness :
  settled (step Scenario2.dirpath
             (step Scenario2.dirpath (awaiting Scenario2.wdir)
                   (Request (Some "/oauth2callback?code=abc")))
             (TokenReply "abc" (inr Scenario.issued)))
  = [Rejected ("Failed to exchange authorization code: " +:+
               "EISDIR: illegal operation on a directory, open '" +:+
               Scenario2.dirpath +:+ "'")]
  ∧
  credentials (world (step Scenario2.dirpath
             (step Scenario2.dirpath (awaiting Scenario2.wdir)
                   (Request (Some "/oauth2callback?code=abc")))
             (TokenReply "abc" (inr Scenario.issued))))
  = Some Scenario.issued.
Proof.
  destruct (failed_grant_rejects Scenario2.dirpath
              (step Scenario2.dirpath (awaiting Scenario2.wdir)
                    (Request (Some "/oauth2callback?code=abc")))
              "abc" (inr Scenario.issued)
              ("EISDIR: illegal operation on a directory, open '" +:+
               Scenario2.dirpath +:+ "'"))
    as (Hs & _ & _ & _ & _ & _ & _ & Hc).
  - reflexivity.
  - reflexivity.
  - right. exists Scenario.issued. split; [reflexivity | vm_compute; reflexivity].
  - split; [exact Hs | apply Hc; reflexivity].
Defined.

Lemma run_stray (path : string) (urls : list (option string)) (st : Session) :
  forallb stray urls = true →
  run path st (map Request urls) =
    mkSession (isResolved st) (timerArmed st) (listening st) (settled st)
      (inflight st) (exchanged st)
      (responses st ++ repeat (mkResponse 404 "Not found") (length urls))
      (world st).
Proof.
  revert st. induction urls as [| url urls IH]; intros st Hall.
  - simpl. rewrite app_nil_r. destruct st; reflexivity.
  - simpl in Hall. apply andb_true_iff in Hall as [Hurl Hall].
    change (run path st (map Request (url :: urls)))
      with (run path (step path st (Request url)) (map Request urls)).
    rewrite other_path_not_found.
    + rewrite (IH _ Hall). simpl. rewrite <- app_assoc. reflexivity.
    + unfold stray in Hurl. apply negb_true_iff in Hurl. exact Hurl.
Qed.

(** X12: requests to paths that do not begin with the callback path, however
    many, leave a session as it is, pending or resolved, apart from the one
    404 response that each receives. *)
Theorem stray_requests_only_get_404 (path : string) (urls : list (option string))
    (st : Session) :
  forallb stray urls = true →
  run path st (map Request urls) =
    mkSession (isResolved st) (timerArmed st) (listening st) (settled st)
      (inflight st) (exchanged st)
      (responses st ++ repeat (mkResponse 404 "Not found") (length urls))
      (world st).
Proof. apply run_stray. Qed.

Lemma stray_requests_only_get_404_witness :
  isResolved (run Scenario.path (awaiting Scenario.w0)
                (map Request [Some "/favicon.ico"; Some "/"; None; Some "/oauth2"]))
  = false.
Proof.
  rewrite (stray_requests_only_get_404 Scenario.path
             [Some "/favicon.ico"; Some "/"; None; Some "/oauth2"]
             (awaiting Scenario.w0)).
  - reflexivity.
  - reflexivity.
Defined.

(** ** Records on disk and in memory *)

Lemma loadCredentials_stored (fs : Fs.t) (path : string) (c : Credentials) :
  stored_at fs path = Some (Fs.Json c) →
  loadCredentials fs path = mkWorld (Some c) fs ∧
  credentialsUnusable fs path = false.
Proof.
  unfold stored_at, loadCredentials, credentialsUnusable. intros H.
  destruct (Fs.files fs !! path) as [f |]; [| discriminate].
  simpl in H. injection H as ->. split; [reflexivity | apply andb_false_r].
Qed.

(** X13: what the code saves, it loads back: after a save of the grant path
    that threw nothing, and after a refresh that returned [true], the
    credentials part of [loadOAuthClient] on the resulting disk gives a client
    that holds exactly the saved record, without the warning. *)
Theorem saved_record_loads_back :
  (∀ (fs fs' : Fs.t) (path : string) (tokens : Credentials),
     saveTokens fs path tokens = (None, fs') →
     loadCredentials fs' path = mkWorld (Some tokens) fs' ∧
     credentialsUnusable fs' path = false)
  ∧
  (∀ (now : Z) (reply : string + Credentials) (w w' : World) (path : string),
     refreshIfNeeded now reply w path = (inr true, w') →
     loadCredentials (disk w') path = w' ∧
     credentialsUnusable (disk w') path = false).
Proof.
  split.
  - intros fs fs' path tokens Hsave.
    destruct (saveTokens_ok _ _ _ _ Hsave) as (Hst & _).
    apply loadCredentials_stored, Hst.
  - intros now reply w w' path Href.
    destruct (refreshIfNeeded_true _ _ _ _ _ Href) as (refreshed & fs' & _ & -> & Hwr).
    destruct (writeFileSync_inr _ _ _ _ Hwr) as (_ & _ & Hst & _).
    simpl. apply loadCredentials_stored, Hst.
Qed.

Lemma saved_record_loads_back_witness :
  loadCredentials (snd (saveTokens Scenario.blank Scenario.path Scenario.issued))
    Scenario.path
  = mkWorld (Some Scenario.issued)
      (snd (saveTokens Scenario.blank Scenario.path Scenario.issued)).
Proof.
  destruct saved_record_loads_back as [Hgrant _].
  apply (Hgrant Scenario.blank). vm_compute. reflexivity.
Defined.

(** ** More on the refresh gate *)

(** X14: the judgement of the gate is monotone in time: a record that needs
    refresh at one instant needs it at every later one. *)
Theorem needsRefresh_monotone (now later : Z) (expiryDate : Js.num) :
  (now <= later)%Z →
  needsRefresh now expiryDate = true →
  needsRefresh later expiryDate = true.
Proof.
  unfold needsRefresh. intros Hle H.
  apply orb_true_iff in H as [H | H]; apply orb_true_iff; [left; exact H | right].
  destruct expiryDate as [| | z]; simpl in *; try discriminate;
    apply Z.leb_le in H; apply Z.leb_le; lia.
Qed.

Lemma needsRefresh_monotone_witness :
  needsRefresh 800000 (Js.Number 1000000) = true.
Proof.
  apply (needsRefresh_monotone 700000 800000 (Js.Number 1000000)).
  - lia.
  - reflexivity.
Defined.

Lemma refreshIfNeeded_fresh (now : Z) (reply : string + Credentials)
    (w : World) (path : string) (c : Credentials) :
  credentials w = Some c →
  Js.truthy (access_token c) = true →
  needsRefresh now (expiry_date c) = false →
  refreshIfNeeded now reply w path = (inr false, w).
Proof.
  intros Hc Hat Hfresh. unfold refreshIfNeeded. rewrite Hc, Hat, Hfresh. reflexivity.
Qed.

(** X15: a refresh is not repeated while its result is fresh: after a call
    that returned [true] with a refreshed record that has an access token, a
    call at any instant at which that record does not need refresh returns
    [false] and changes nothing, whatever the provider would answer. *)
Theorem refresh_is_not_repeated (now later : Z) (refreshed : Credentials)
    (reply' : string + Credentials) (w w' : World) (path : string) :
  refreshIfNeeded now (inr refreshed) w path = (inr true, w') →
  Js.truthy (access_token refreshed) = true →
  needsRefresh later (expiry_date refreshed) = false →
  refreshIfNeeded later reply' w' path = (inr false, w').
Proof.
  intros Href Hat Hfresh.
  destruct (refreshIfNeeded_true _ _ _ _ _ Href) as (r & fs' & [= <-] & -> & _).
  apply (refreshIfNeeded_fresh later reply' _ path refreshed); auto.
Qed.

Lemma refresh_is_not_repeated_witness :
  refreshIfNeeded 1000000 (inl "unreachable")
    (snd (refreshIfNeeded 900000 (inr Scenario2.renewed) Scenario.w0 Scenario.path))
    Scenario.path
  = (inr false,
     snd (refreshIfNeeded 900000 (inr Scenario2.renewed) Scenario.w0 Scenario.path)).
Proof.
  apply (refresh_is_not_repeated 900000 1000000 Scenario2.renewed (inl "unreachable")
           Scenario.w0).
  - vm_compute. reflexivity.
  - reflexivity.
  - reflexivity.
Defined.

(** X16: when the save of a refresh throws, the refreshed record stays in the
    client although the call failed and the disk is as it was; if that
    record has an access token, a later call in the same process, made while
    the record is fresh, returns [false]: the refreshed tokens are not written
    by it. *)
Theorem unsaved_refresh_stays_in_memory (now later : Z) (w : World) (path : string)
    (c refreshed : Credentials) (msg : string) (reply' : string + Credentials) :
  credentials w = Some c →
  Js.truthy (access_token c) = true →
  needsRefresh now (expiry_date c) = true →
  Js.truthy (refresh_token c) = true →
  Fs.writeFileSync (disk w) path (Fs.Json refreshed) = inl msg →
  refreshIfNeeded now (inr refreshed) w path
    = (inl (refreshFailed msg), mkWorld (Some refreshed) (disk w)) ∧
  (Js.truthy (access_token refreshed) = true →
   needsRefresh later (expiry_date refreshed) = false →
   refreshIfNeeded later reply' (mkWorld (Some refreshed) (disk w)) path
     = (inr false, mkWorld (Some refreshed) (disk w))).
Proof.
  intros Hc Hat Hneed Hrt Hwr. split.
  - unfold refreshIfNeeded. rewrite Hc, Hat, Hneed, Hrt. simpl. rewrite Hwr. reflexivity.
  - intros Hat' Hfresh. apply (refreshIfNeeded_fresh later reply' _ path refreshed); auto.
Qed.

Lemma unsaved_refresh_stays_in_memory_witness :
  refreshIfNeeded 900000 (inr Scenario2.renewed) Scenario.wblank Scenario.path
  = (inl (refreshFailed ("ENOENT: no such file or directory, open '" +:+
                         Scenario.path +:+ "'")),
     mkWorld (Some Scenario2.renewed) Scenario.blank).
Proof.
  apply (unsaved_refresh_stays_in_memory 900000 1000000 Scenario.wblank Scenario.path
           Scenario.stored Scenario2.renewed
           ("ENOENT: no such file or directory, open '" +:+ Scenario.path +:+ "'")
           (inl "unreachable")).
  - reflexivity.
  - reflexivity.
  - reflexivity.
  - reflexivity.
  - vm_compute. reflexivity.
Defined.

(** X17: the status command and the gate agree in one direction: a record
    that the status command calls expired is one that the gate refreshes, and
    when the status command gives up for want of a refresh token the gate
    throws without asking the provider and without touching anything. *)
Theorem status_expired_means_refresh (now : Z) (c : Credentials) :
  (statusOfToken now c ≠ StatusValid → needsRefresh now (expiry_date c) = true) ∧
  (statusOfToken now c = StatusExpiredNoRefreshToken →
   ∀ reply w path,
     credentials w = Some c →
     refreshIfNeeded now reply w path = (inl ERR_NO_CREDENTIALS, w) ∨
     refreshIfNeeded now reply w path = (inl ERR_NO_REFRESH_TOKEN, w)).
Proof.
  assert (Hexp : statusOfToken now c ≠ StatusValid →
                 needsRefresh now (expiry_date c) = true).
  { unfold statusOfToken, needsRefresh.
    destruct (expiry_date c) as [| | z]; simpl; try (intros H; destruct H; reflexivity).
    destruct (negb (Z.eqb z 0)); simpl; [| intros _; reflexivity].
    destruct (Z.leb z now) eqn:Hle; [| intros H; destruct H; reflexivity].
    intros _. apply Z.leb_le in Hle. apply Z.leb_le. unfold expiryBuffer. lia. }
  split; [exact Hexp |].
  intros Hst reply w path Hc.
  assert (Hneed : needsRefresh now (expiry_date c) = true).
  { apply Hexp. rewrite Hst. discriminate. }
  assert (Hrt : Js.truthy (refresh_token c) = false).
  { unfold statusOfToken in Hst.
    destruct (Js.truthy_num (expiry_date c) && _); [| discriminate].
    destruct (Js.truthy (refresh_token c)); [discriminate | reflexivity]. }
  unfold refreshIfNeeded. rewrite Hc.
  destruct (Js.truthy (access_token c)); simpl; [| left; reflexivity].
  rewrite Hneed, Hrt. right. reflexivity.
Qed.

Lemma status_expired_means_refresh_witness :
  needsRefresh 2000000 (expiry_date Scenario.stored) = true.
Proof.
  destruct (status_expired_means_refresh 2000000 Scenario.stored) as [Hexp _].
  apply Hexp. vm_compute. discriminate.
Defined.

(** The converse does not hold: two minutes before expiry the status command
    still says valid, and the gate refreshes. *)
Example status_valid_yet_refreshed :
  statusOfToken 880000 Scenario.stored = StatusValid ∧
  needsRefresh 880000 (expiry_date Scenario.stored) = true.
Proof. split; reflexivity. Qed.

(** ** The setup wizard *)

Lemma fulfilled_step (path : string) (st : Session) (ev : event) :
  settled (step path st ev) = settled st ++ [Fulfilled] →
  ∃ code tokens,
    ev = TokenReply code (inr tokens) ∧
    stored_at (disk (world (step path st ev))) path = Some (Fs.Json tokens) ∧
    credentials (world (step path st ev)) = Some tokens.
Proof.
  assert (Hno : ∀ s e, settled (cleanup s (Some e)) = settled s ++ [Fulfilled] → False).
  { intros s e H. unfold cleanup in H. destruct (isResolved s); simpl in H.
    - symmetry in H. exact (snoc_neq_self _ _ H).
    - apply app_inv_head in H. discriminate. }
  destruct ev as [url | code reply | | msg]; simpl.
  - intros H. exfalso. destruct (on_request_settled st url) as [Hs | [m Hs]];
      rewrite Hs in H.
    + symmetry in H. exact (snoc_neq_self _ _ H).
    + apply app_inv_head in H. discriminate.
  - unfold on_token_reply.
    destruct (existsb (String.eqb code) (inflight st)); simpl.
    2:{ intros H. symmetry in H. destruct (snoc_neq_self _ _ H). }
    destruct reply as [m | tokens].
    + unfold exchangeFailed. intros H. destruct (Hno _ _ H).
    + destruct (saveTokens _ path tokens) as [[m |] fs'] eqn:Hsave.
      * unfold exchangeFailed. intros H. destruct (Hno _ _ H).
      * intros H. exists code, tokens. split; [reflexivity |].
        destruct (saveTokens_ok _ _ _ _ Hsave) as (Hst & _).
        unfold cleanup in *. simpl in *. destruct (isResolved st); simpl in *.
        -- symmetry in H. destruct (snoc_neq_self _ _ H).
        -- auto.
  - intros H. destruct (Hno _ _ H).
  - intros H. destruct (Hno _ _ H).
Qed.

Lemma secureCredentials_file (fs : Fs.t) (path : string) (d : Fs.data) :
  stored_at fs path = Some d →
  ∃ fs',
    secureCredentials fs path = inr fs' ∧
    stored_at fs' path = Some d ∧
    mode_at fs' path = Some 384%N ∧
    Fs.owner_only <$> (Fs.files fs' !! path) = Some true ∧
    (∀ q, q ≠ path → Fs.files fs' !! q = Fs.files fs !! q).
Proof.
  unfold stored_at, secureCredentials, Fs.existsSync, Fs.is_file, chmodSync, mode_at.
  destruct (Fs.files fs !! path) as [f |] eqn:Hf; [| discriminate].
  intros [= <-]. rewrite orb_true_r. eexists. split; [reflexivity |].
  simpl. rewrite lookup_insert_eq. repeat split.
  intros q Hq. apply lookup_insert_ne. congruence.
Qed.

(** X18: when [authenticate] is fulfilled, the event that fulfilled it is the
    answer of the provider to a code, and once the wizard has secured the
    credential file, as [runAuthFlow] does, the file holds the record of that
    answer, which is also the record in the client, with the permission bits
    [0o600]: nobody but the owner can read it. Other files are as the flow
    left them. *)
Theorem wizard_restricts_the_credential_file (path : string) (st : Session) (ev : event) :
  settled (step path st ev) = settled st ++ [Fulfilled] →
  ∃ code tokens fs',
    ev = TokenReply code (inr tokens) ∧
    credentials (world (step path st ev)) = Some tokens ∧
    secureCredentials (disk (world (step path st ev))) path = inr fs' ∧
    stored_at fs' path = Some (Fs.Json tokens) ∧
    mode_at fs' path = Some 384%N ∧
    Fs.owner_only <$> (Fs.files fs' !! path) = Some true ∧
    (∀ q, q ≠ path →
       Fs.files fs' !! q = Fs.files (disk (world (step path st ev))) !! q).
Proof.
  intros Hful.
  destruct (fulfilled_step path st ev Hful) as (code & tokens & Hev & Hst & Hcred).
  destruct (secureCredentials_file _ _ _ Hst) as (fs' & Hsec & Hst' & Hmode & Hown & Hother).
  exists code, tokens, fs'. repeat split; assumption.
Qed.

Lemma wizard_restricts_the_credential_file_witness :
  ∃ fs',
    secureCredentials
      (disk (world (step Scenario.path
                      (step Scenario.path (awaiting Scenario.wblank)
                            (Request (Some "/oauth2callback?code=abc")))
                      (TokenReply "abc" (inr Scenario.issued)))))
      Scenario.path = inr fs' ∧
    stored_at fs' Scenario.path = Some (Fs.Json Scenario.issued) ∧
    mode_at fs' Scenario.path = Some 384%N.
Proof.
  destruct (wizard_restricts_the_credential_file Scenario.path
              (step Scenario.path (awaiting Scenario.wblank)
                    (Request (Some "/oauth2callback?code=abc")))
              (TokenReply "abc" (inr Scenario.issued)))
    as (code & tokens & fs' & Hev & _ & Hsec & Hst & Hmode & _).
  - vm_compute. reflexivity.
  - injection Hev as _ <-. exists fs'. auto.
Defined.

Lemma wizardCleanup_keeps (fs : Fs.t) (path : string) :
  (∀ s, stored_at fs path ≠ Some (Fs.Garbage s)) →
  snd (wizardCleanup fs path) = fs.
Proof.
  unfold stored_at, wizardCleanup, unlinkSync. intros Hno.
  destruct (Fs.existsSync fs path); [| reflexivity].
  destruct (Fs.files fs !! path) as [f |] eqn:Hf.
  - destruct (Fs.content f) as [c | s] eqn:Hc; [reflexivity |].
    destruct (Hno s). simpl. rewrite Hc. reflexivity.
  - destruct (Fs.is_dir fs path); reflexivity.
Qed.

(** X19: the cleanup of the wizard removes the credential file only when it
    does not parse: a file that holds a record is kept, an unparsable one is
    deleted and nothing else is; and since a session writes whole records
    only, the cleanup that follows a failed flow deletes nothing when the
    credential file was absent or parsable before the flow. *)
Theorem wizard_cleanup_spares_records :
  (∀ (fs : Fs.t) (path : string) (c : Credentials),
     stored_at fs path = Some (Fs.Json c) → wizardCleanup fs path = (None, fs))
  ∧
  (∀ (fs : Fs.t) (path s : string),
     stored_at fs path = Some (Fs.Garbage s) →
     ∃ fs', wizardCleanup fs path = (None, fs') ∧
            Fs.files fs' = delete path (Fs.files fs) ∧ Fs.dirs fs' = Fs.dirs fs)
  ∧
  (∀ (path : string) (st : Session) (evs : list event),
     (∀ s, stored_at (disk (world st)) path ≠ Some (Fs.Garbage s)) →
     snd (wizardCleanup (disk (world (run path st evs))) path)
       = disk (world (run path st evs))).
Proof.
  split; [| split].
  - intros fs path c. unfold stored_at, wizardCleanup, Fs.existsSync, Fs.is_file.
    destruct (Fs.files fs !! path) as [f |]; [| discriminate].
    simpl. intros [= ->]. rewrite orb_true_r. reflexivity.
  - intros fs path s. unfold stored_at, wizardCleanup, Fs.existsSync, Fs.is_file, unlinkSync.
    destruct (Fs.files fs !! path) as [f |]; [| discriminate].
    simpl. intros [= ->]. rewrite orb_true_r. eexists. split; [reflexivity |]. auto.
  - intros path st evs Hno. apply wizardCleanup_keeps. intros s Hs.
    destruct (run_frame path evs st) as (_ & _ & [Hsame | [c Hc]]).
    + rewrite Hsame in Hs. exact (Hno s Hs).
    + rewrite Hc in Hs. discriminate.
Qed.

Lemma wizard_cleanup_spares_records_witness :
  wizardCleanup Scenario.disk0 Scenario.path = (None, Scenario.disk0).
Proof.
  destruct wizard_cleanup_spares_records as [Hkeep _].
  apply (Hkeep Scenario.disk0 Scenario.path Scenario.stored).
  vm_compute. reflexivity.
Defined.

(** ** The directory of the credential path *)

Lemma lastIndexOf_from_none (c : ascii) (s : string) (i found : Z) :
  has_char c s = false → Js.lastIndexOf_from c s i found = found.
Proof.
  revert i found. induction s as [| a s IH]; intros i found H; simpl in *.
  - reflexivity.
  - apply orb_false_iff in H as [Ha Hs]. rewrite Ha. apply IH, Hs.
Qed.

Lemma lastIndexOf_from_append (c : ascii) (s t : string) (i found : Z) :
  Js.lastIndexOf_from c (s +:+ t) i found =
  Js.lastIndexOf_from c t (i + Z.of_nat (String.length s))
    (Js.lastIndexOf_from c s i found).
Proof.
  revert i found. induction s as [| a s IH]; intros i found.
  - simpl. rewrite Z.add_0_r. reflexivity.
  - change (String a s +:+ t) with (String a (s +:+ t)).
    cbn [Js.lastIndexOf_from String.length]. rewrite IH. f_equal. lia.
Qed.

Lemma substring_prefix (d t : string) :
  String.substring 0 (String.length d) (d +:+ t) = d.
Proof.
  induction d as [| a d IH].
  - simpl. destruct t; reflexivity.
  - change (String a d +:+ t) with (String a (d +:+ t)).
    cbn [String.length String.substring]. f_equal. exact IH.
Qed.

Lemma dirname_of_join (d name : string) :
  has_char "/" name = false → Fs.dirname (d +:+ String "/" name) = d.
Proof.
  intros Hname. unfold Fs.dirname, Js.lastIndexOf.
  rewrite lastIndexOf_from_append. cbn [Js.lastIndexOf_from].
  change (Ascii.eqb "/" "/") with true. cbv iota.
  rewrite lastIndexOf_from_none by exact Hname.
  unfold Js.substring, Js.clamp. rewrite length_append. cbn [String.length].
  replace (Z.to_nat (Z.min (Z.max 0 0) _)) with 0%nat by lia.
  replace (Z.to_nat (Z.min (Z.max (0 + Z.of_nat (String.length d)) 0) _))
    with (String.length d) by lia.
  rewrite Nat.min_0_l, Nat.max_0_l, Nat.sub_0_r. apply substring_prefix.
Qed.

(** X20: for a credential path [d/name], with no slash in [name], the
    directory that the grant path looks at is [d]; a save that throws nothing
    has created [d] when it was named and missing. When [d] is empty, the
    file lying directly under the root, the save creates no directory. *)
Theorem save_creates_the_directory_before_the_name (fs fs' : Fs.t) (d name : string)
    (tokens : Credentials) :
  has_char "/" name = false →
  saveTokens fs (d +:+ String "/" name) tokens = (None, fs') →
  Fs.dirname (d +:+ String "/" name) = d ∧
  (d ≠ "" → Fs.existsSync fs d = false → Fs.is_dir fs' d = true) ∧
  (d = "" → Fs.dirs fs' = Fs.dirs fs).
Proof.
  intros Hname Hsave. pose proof (dirname_of_join d name Hname) as Hdir.
  split; [exact Hdir | split].
  - intros Hne Hmissing.
    destruct (saveTokens_ok _ _ _ _ Hsave) as (_ & _ & _ & Hmk).
    rewrite Hdir in Hmk. apply (Hmk Hne Hmissing), ancestors_self, Hne.
  - intros ->. revert Hsave Hdir. generalize ("" +:+ String "/" name). intros p Hsave Hdir.
    revert Hsave. unfold saveTokens. fold (Fs.dirname p). rewrite Hdir.
    change (negb (String.eqb "" "") && negb (Fs.existsSync fs "")) with false.
    cbv iota.
    destruct (Fs.writeFileSync fs p (Fs.Json tokens)) as [m | fs2] eqn:Hwr;
      [discriminate |].
    intros [= <-]. destruct (writeFileSync_inr _ _ _ _ Hwr) as (Hdirs & _). exact Hdirs.
Qed.

Lemma save_creates_the_directory_before_the_name_witness :
  Fs.is_dir (snd (saveTokens Scenario.blank Scenario.path Scenario.issued))
    Scenario.home = true.
Proof.
  destruct (save_creates_the_directory_before_the_name Scenario.blank
              (snd (saveTokens Scenario.blank Scenario.path Scenario.issued))
              Scenario.home "credentials.json" Scenario.issued)
    as (_ & Hmk & _).
  - reflexivity.
  - vm_compute. reflexivity.
  - apply Hmk; [discriminate | vm_compute; reflexivity].
Defined.

(** ** Loader and validator side by side *)

(** X21: a web-application key file, an object with a truthy [web] entry and
    no [installed] entry that is not marked as a service account, is turned
    down by the validator and yet accepted by [loadOAuthClient], which builds
    the client from the [web] entry and fails only for want of a free port. *)
Theorem web_keys_load_but_do_not_validate (filePath oauthPath : string)
    (fields : list (string * Json.value)) (keys : Json.value)
    (credentialsPath : string) (fs : Fs.t) (bound : gset N) :
  Json.field "web" fields = Some keys →
  Json.truthy_value keys = true →
  Json.field "installed" fields = None →
  Json.is_string (Json.prop (Json.Obj fields) "type") "service_account" = false →
  validateOAuthFile filePath (Parsed (Json.Obj fields))
    = Invalid "This is a Web app OAuth. Create Desktop app instead."
  ∧
  ((∃ loaded,
      loadOAuthClient oauthPath (Parsed (Json.Obj fields)) credentialsPath fs bound
        = (inr loaded, bound) ∧
      client_id loaded = Json.prop keys "client_id" ∧
      client_secret loaded = Json.prop keys "client_secret")
   ∨
   loadOAuthClient oauthPath (Parsed (Json.Obj fields)) credentialsPath fs bound
     = (inl (Error "No available ports found. Tried: 3000, 3001, 3002"), bound)).
Proof.
  intros Hweb Htr Hinst Hty. split.
  - unfold validateOAuthFile.
    assert (Hhas : Json.has "web" (Json.Obj fields) = Some true)
      by (simpl; rewrite Hweb; reflexivity).
    destruct (Json.prop (Json.Obj fields) "type") as [| | ty] eqn:Htype.
    + destruct (prop_obj_no_throw _ _ Htype).
    + cbn [Json.is_string]. rewrite Hhas. reflexivity.
    + rewrite Hty, Hhas. reflexivity.
  - unfold loadOAuthClient.
    assert (Hi : Json.prop (Json.Obj fields) "installed" = Json.Absent)
      by (simpl; rewrite Hinst; reflexivity).
    assert (Hw : Json.prop (Json.Obj fields) "web" = Json.Found keys)
      by (simpl; rewrite Hweb; reflexivity).
    rewrite Hi. cbv beta iota. cbn [Json.truthy]. cbv iota. rewrite Hw.
    cbn [Json.truthy]. rewrite Htr. cbn [negb].
    destruct (findAvailablePort bound) as [[msg | port] b] eqn:Hport;
      destruct (findAvailablePort_result _ _ _ Hport) as [-> Hr].
    + right. destruct Hr as [_ ->]. reflexivity.
    + left. eexists. split; [reflexivity |]. simpl. auto.
Qed.

Lemma web_keys_load_but_do_not_validate_witness :
  validateOAuthFile Keys.oauthPath (Parsed Keys.web)
    = Invalid "This is a Web app OAuth. Create Desktop app instead.".
Proof.
  apply (web_keys_load_but_do_not_validate Keys.oauthPath Keys.oauthPath
           [("web", Keys.entries)] Keys.entries Scenario.path Scenario.disk0 ∅);
    reflexivity.
Defined.

(** ** The successful exchange *)

(** When the exchange of a pending session succeeds and the save throws
    nothing, [authenticate] is fulfilled: the client holds the tokens, the
    request is answered with the success page, the timer is cancelled and the
    listener released, and the exchange is no longer under way. *)
Lemma granted_exchange_fulfils (path : string) (st : Session) (code : string)
    (tokens : Credentials) (fs' : Fs.t) :
  isResolved st = false →
  existsb (String.eqb code) (inflight st) = true →
  saveTokens (disk (world st)) path tokens = (None, fs') →
  step path st (TokenReply code (inr tokens)) =
    mkSession true false false (settled st ++ [Fulfilled])
      (remove_first code (inflight st)) (exchanged st)
      (responses st ++ [mkResponse 200 successPage])
      (mkWorld (Some tokens) fs')
  ∧ stored_at fs' path = Some (Fs.Json tokens)
  ∧ (length (remove_first code (inflight st)) < length (inflight st))%nat.
Proof.
  intros Hres Hin Hsave. split; [| split].
  - simpl. unfold on_token_reply. rewrite Hin. cbn [negb]. simpl. rewrite Hsave.
    rewrite cleanup_pending by (simpl; assumption). reflexivity.
  - destruct (saveTokens_ok _ _ _ _ Hsave) as (Hst & _). exact Hst.
  - pose proof (remove_first_length _ _ Hin). lia.
Qed.

Lemma granted_exchange_fulfils_witness :
  settled (step Scenario.path
             (step Scenario.path (awaiting Scenario.w0)
                   (Request (Some "/oauth2callback?code=abc")))
             (TokenReply "abc" (inr Scenario.issued)))
  = [Fulfilled].
Proof.
  destruct (granted_exchange_fulfils Scenario.path
              (step Scenario.path (awaiting Scenario.w0)
                    (Request (Some "/oauth2callback?code=abc")))
              "abc" Scenario.issued
              (snd (saveTokens Scenario.disk0 Scenario.path Scenario.issued)))
    as (Hstep & _).
  - reflexivity.
  - reflexivity.
  - vm_compute. reflexivity.
  - rewrite Hstep. reflexivity.
Defined.
